(** * Artificial Grammar Toolkit: a shallow embedding and its properties

    The repository holds two versions of one engine:

    - [node-tree.py], the engine with separate [generate], [render],
      [execute] and [is_legal] (the refactoring that the closing notes
      of the other file plan);
    - [artificial_grammar_toolkit.py], the earlier engine, which resolves
      the children of a node in its constructor. Definitions taken from
      it have names ending in [_init].

    Modelling conventions:

    - a Python exception is a value [Raise e] of the type [result];
    - an integer argument is a [Z];
    - a dict with string keys is a [gmap string _]; where aliasing
      matters (module [Scope]) dicts live in a store;
    - the generated children of a node, once assigned, are a Rocq list;
      where the code handles lists, tuples and [map] iterators
      differently (module [Concat]) the three are kept apart;
    - an attribute that a constructor sets only when it is given a value
      (the count [N] of a Concat) is an [option], [None] when not set;
    - the pseudo-random source is never run: the outcome of a draw
      ([random.sample], [random.shuffle]) is an argument of the function
      that makes it, and where the state of the source matters (module
      [Render]) it is a tape of raw draws. *)

From Stdlib Require Import ZArith Lia Bool.
From stdpp Require Import base option list sorting gmap strings.

Open Scope Z_scope.

#[local] Set Warnings "-register-all".

(** ** Exceptions and fallible results *)

Inductive exn : Type :=
  | AssertionError
  | IndexError
  | NameError
  | AttributeError
  | StopIteration
  | RecursionError
  | ValueError
  | NotImplemented
  | TypeError
  | UnboundLocalError.

Inductive result (A : Type) : Type :=
  | Ok (a : A)
  | Raise (e : exn).

Arguments Ok {A} a.
Arguments Raise {A} e.

Definition rbind {A B} (r : result A) (k : A -> result B) : result B :=
  match r with
  | Ok a => k a
  | Raise e => Raise e
  end.

Notation "'do' x <- r ; k" := (rbind r (fun x => k))
  (at level 10, x name, r at level 100, k at level 200).

(** [for i in xs: s = body i s], stopping at the first exception. *)
Fixpoint for_each {I S : Type} (body : I -> S -> result S) (xs : list I) (s : S)
  : result S :=
  match xs with
  | [] => Ok s
  | i :: xs' => do s' <- body i s; for_each body xs' s'
  end.

(** [range(n)] for a Python integer [n]: empty when [n <= 0]. *)
Definition range (n : Z) : list nat := seq 0 (Z.to_nat n).

(** ** Repeat: the child sequence *)

Module Repeat.
Section Items.
Context {T : Type}.
Variables (item : T) (sep last_sep : option T).

(** [items.append(x)] when [x is not None]. *)
Definition append_opt (items : list T) (x : option T) : list T :=
  match x with
  | Some s => items ++ [s]
  | None => items
  end.

(** The separator branch of the loop body, the same in both files. *)
Definition append_sep (N : Z) (i : nat) (items : list T) : list T :=
  if Z.of_nat i <? N - 2 then append_opt items sep
  else if Z.of_nat i =? N - 2 then
    match last_sep with
    | Some l => items ++ [l]
    | None => append_opt items sep
    end
  else items.

(** [RepeatNode.__init__] of artificial_grammar_toolkit.py, lines 371-380:
    [items.append(item)] and then the separator. *)
Definition init_body (N : Z) (i : nat) (items : list T) : result (list T) :=
  Ok (append_sep N i (items ++ [item])).

Definition RepeatNode_init_items (N : Z) : result (list T) :=
  for_each (init_body N) (range N) [].

(** [RepeatNode.generate] of node-tree.py, lines 570-579: the loop
    appends [items[i]], an index into the list being built. *)
Definition generate_body (N : Z) (i : nat) (items : list T) : result (list T) :=
  match items !! i with
  | None => Raise IndexError
  | Some x => Ok (append_sep N i (items ++ [x]))
  end.

Definition RepeatNode_generate_items (repititions : Z) : result (list T) :=
  for_each (generate_body repititions) (range repititions) [].

(** The child sequence in the words of the specification: the item [R]
    times, [sep] in every gap but the last, [last_sep] (else [sep]) in
    the last gap; an absent separator contributes nothing. *)
Definition opt_list (x : option T) : list T :=
  match x with Some s => [s] | None => [] end.

Definition final_gap : list T :=
  match last_sep with Some l => [l] | None => opt_list sep end.

Fixpoint repeat_spec (R : nat) : list T :=
  match R with
  | O => []
  | S R' =>
      match R' with
      | O => [item]
      | S R'' =>
          match R'' with
          | O => item :: final_gap ++ [item]
          | S _ => item :: opt_list sep ++ repeat_spec R'
          end
      end
  end.
End Items.
End Repeat.

(** ** Sampled concatenation *)

Module Sampling.
Section Pool.
Context {A : Type}.

(** [itertools.combinations(pool, r)]: the [r]-element subsequences of
    the pool, in lexicographic order of positions. *)
Fixpoint combinations (pool : list A) (r : nat) : list (list A) :=
  match pool with
  | [] => match r with O => [[]] | S _ => [] end
  | x :: pool' =>
      match r with
      | O => [[]]
      | S k => (cons x <$> combinations pool' k) ++ combinations pool' (S k)
      end
  end.
End Pool.

(** The binomial coefficient, by Pascal's rule. *)
Fixpoint binomial (p n : nat) : nat :=
  match p, n with
  | _, O => 1
  | O, S _ => 0
  | S p', S n' => (binomial p' n' + binomial p' n)%nat
  end.
End Sampling.

(** ** The matcher (node-tree.py) *)

Module Matcher.

(** The classes of node-tree.py. *)
Inductive cls : Type :=
  | CNode | CStringNode | CEmptyNode | CConcatNode | CRepeatNode
  | CUnionNode | COptionalNode | CExcludeNode.

(** [issubclass(a, b)], from the [class] statements:
    Empty < String < Node; Optional < Union < Concat < Node;
    Repeat < Concat; Exclude < Node. *)
Definition issubclass (a b : cls) : bool :=
  match b, a with
  | CNode, _ => true
  | CStringNode, (CStringNode | CEmptyNode) => true
  | CEmptyNode, CEmptyNode => true
  | CConcatNode, (CConcatNode | CRepeatNode | CUnionNode | COptionalNode) => true
  | CRepeatNode, CRepeatNode => true
  | CUnionNode, (CUnionNode | COptionalNode) => true
  | COptionalNode, COptionalNode => true
  | CExcludeNode, CExcludeNode => true
  | _, _ => false
  end.

(** A node object. [oid] is the identity of the object; a node class
    defines no [__eq__], so [==] compares identities. The attributes
    that hold a template ([item], [sep], [last_sep], [lhs], [rhs]) are
    [Some] when they hold a node and [None] when they hold [None] or a
    value that is not a node. *)
Inductive Node : Type := mkNode {
  oid : nat;
  class : cls;
  string : String.string;
  N : option Z;
  _all_children : list Node;
  children : list Node;
  item : option Node;
  sep : option Node;
  last_sep : option Node;
  lhs : option Node;
  rhs : option Node
}.

Definition isinstance (n : Node) (c : cls) : bool := issubclass (class n) c.

(** Objects as the constructors leave them (no template attribute set). *)
Definition StringNode (id : nat) (s : String.string) : Node :=
  mkNode id CStringNode s None [] [] None None None None None.

Definition EmptyNode (id : nat) : Node :=
  mkNode id CEmptyNode EmptyString None [] [] None None None None None.

(** A node of the Concat family: [ConcatNode] with an optional count,
    [UnionNode] ([N = 1]). *)
Definition ConcatNode (id : nat) (n : option Z) (pool : list Node) : Node :=
  mkNode id CConcatNode EmptyString n pool [] None None None None None.

Definition UnionNode (id : nat) (pool : list Node) : Node :=
  mkNode id CUnionNode EmptyString (Some 1) pool [] None None None None None.

(** [Node.generate] assigns [self.children] on the object itself: the
    derivation of a grammar node is that same object, with the chosen
    children. *)
Definition generated (g : Node) (chosen : list Node) : Node :=
  mkNode (oid g) (class g) (string g) (N g) (_all_children g) chosen
    (item g) (sep g) (last_sep g) (lhs g) (rhs g).

(** [self == syntax] *)
Definition same_object (a b : Node) : bool := Nat.eqb (oid a) (oid b).

(** [StringNode.matches], lines 362-363. *)
Definition StringNode_matches (self syntax : Node) : bool :=
  isinstance syntax CStringNode && String.eqb (string self) (string syntax).

(** [any(f(x) for x in xs)]: stops at the first [True]; an exception
    raised by [f] before that propagates. *)
Fixpoint any_of {X : Type} (f : X -> result bool) (xs : list X) : result bool :=
  match xs with
  | [] => Ok false
  | x :: xs' => do b <- f x; if b then Ok true else any_of f xs'
  end.

(** [a and b], [b] evaluated only when [a] is true. *)
Definition and_then (a : result bool) (b : result bool) : result bool :=
  do x <- a; if x then b else Ok false.

Section WithShuffle.
(** The permutation drawn by [random.shuffle(all_possible_children)]. *)
Variable shuffle : list (list Node) -> list (list Node).

(** [is_legal], lines 653-700, with the body of [ConcatNode.matches]
    (lines 481-506) in place of the call [ast.matches(cst)]. After the
    test for [EmptyNode] the chain goes on with [LiteralNode],
    [VariableNode] and [FunctionNode] and then breaks off; these names
    are bound nowhere in the module, so reaching the first of them
    raises [NameError]. *)
Fixpoint is_legal (ast cst : Node) {struct ast} : result bool :=
  let attr (a b : option Node) : result bool :=
    match a, b with
    | Some x, Some y => is_legal x y
    | _, _ => Raise NameError
    end in
  let all_legal :=
    fix all_legal (xs ys : list Node) {struct xs} : result bool :=
      match xs, ys with
      | x :: xs', y :: ys' =>
          do b <- is_legal x y; if b then all_legal xs' ys' else Ok false
      | _, _ => Ok true
      end in
  if isinstance ast CConcatNode then
    if isinstance cst CConcatNode then
      (* ast.matches(cst) *)
      if same_object ast cst then Ok true
      else if negb (isinstance cst CConcatNode) then Ok false
      else
        match N cst with
        | Some n =>
            if negb (Z.of_nat (length (children ast)) =? n) then Ok false
            else any_of (all_legal (children ast))
                   (shuffle (Sampling.combinations (_all_children cst) (Z.to_nat n)))
        | None =>
            if negb (Nat.eqb (length (children ast)) (length (_all_children cst)))
            then Ok false
            else any_of (all_legal (children ast)) [_all_children cst]
        end
    else Ok false
  else if isinstance ast CRepeatNode then
    if isinstance cst CRepeatNode then
      and_then (attr (item ast) (item cst))
        (and_then (attr (sep ast) (sep cst)) (attr (last_sep ast) (last_sep cst)))
    else Ok false
  else if isinstance ast CUnionNode then
    if isinstance cst CUnionNode then all_legal (children ast) (children cst)
    else Ok false
  else if isinstance ast COptionalNode then
    if isinstance cst COptionalNode then attr (item ast) (item cst)
    else Ok false
  else if isinstance ast CExcludeNode then
    if isinstance cst CExcludeNode then
      and_then (attr (lhs ast) (lhs cst)) (attr (rhs ast) (rhs cst))
    else Ok false
  else if isinstance ast CEmptyNode then Ok (isinstance cst CEmptyNode)
  else Raise NameError.

(** [all(is_legal(a, b) for a, b in zip(xs, ys))] *)
Fixpoint all_legal (xs ys : list Node) : result bool :=
  match xs, ys with
  | x :: xs', y :: ys' =>
      do b <- is_legal x y; if b then all_legal xs' ys' else Ok false
  | _, _ => Ok true
  end.

(** [ConcatNode.matches], lines 481-506. *)
Definition ConcatNode_matches (self syntax : Node) : result bool :=
  if same_object self syntax then Ok true
  else if negb (isinstance syntax CConcatNode) then Ok false
  else
    match N syntax with
    | Some n =>
        if negb (Z.of_nat (length (children self)) =? n) then Ok false
        else any_of (all_legal (children self))
               (shuffle (Sampling.combinations (_all_children syntax) (Z.to_nat n)))
    | None =>
        if negb (Nat.eqb (length (children self)) (length (_all_children syntax)))
        then Ok false
        else any_of (all_legal (children self)) [_all_children syntax]
    end.
End WithShuffle.
End Matcher.

(** ** The template normalizer on strings (both files) *)

Module Lazy.
Section Values.
(** The keyword context [**kwargs], opaque to the normalizer. *)
Variable K : Type.

(** The Python values the resolver can meet. *)
Inductive value : Type :=
  | VStr (s : String.string)
  | VCallable (f : K -> result value)
  | VKwargs (kw : K)
  | VObject (id : nat)
  | VClassNode.

(** [callable(var)] *)
Definition callable (v : value) : bool :=
  match v with
  | VCallable _ => true
  | _ => false
  end.

(** [locals()] where [_lazy_eval] calls it: the two parameters. *)
Definition locals (var : value) (kwargs : K) : gmap String.string value :=
  <["var"%string := var]> (<["kwargs"%string := VKwargs kwargs]> ∅).

(** [_lazy_eval(var, **kwargs)], lines 20-55 of node-tree.py and 23-58
    of artificial_grammar_toolkit.py; [g] is [globals()]. *)
Definition _lazy_eval (g : gmap String.string value) (var : value) (kwargs : K)
  : result value :=
  match var with
  | VCallable f => f kwargs
  | VStr name =>
      let l := locals var kwargs in
      match l !! name with
      | Some v => Ok v
      | None =>
          match g !! name with
          | Some v => Ok v
          | None => Ok var
          end
      end
  | _ => Raise ValueError
  end.

(** [Node.__new__] (node-tree.py, lines 131-134) and
    [TemplateNode.__new__] (artificial_grammar_toolkit.py, lines
    245-248) on a template that is a string. *)
Definition Node_new_str (g : gmap String.string value)
    (template : String.string) (kwargs : K) : result value :=
  _lazy_eval g (VStr template) kwargs.
End Values.
Arguments VStr {K} s.
Arguments VCallable {K} f.
Arguments VKwargs {K} kw.
Arguments VObject {K} id.
Arguments VClassNode {K}.
Arguments callable {K} v.
Arguments locals {K} var kwargs.
Arguments _lazy_eval {K} g var kwargs.
Arguments Node_new_str {K} g template kwargs.
End Lazy.

(** ** Exclude: the regeneration loop (node-tree.py) *)

Module Exclude.
Section Loop.
(** The values held by a scope. *)
Variable V : Type.

Definition scope : Type := gmap String.string V.

(** [scope.update(updates)] *)
Definition update (s updates : scope) : scope := updates ∪ s.

(** One pass through the body of the [while True] loop, as the loop
    sees it. [Generated u v]: [super().generate(scope=scope,
    children=[self.lhs])] returned, after the updates [u] returned by
    the generation of [lhs] were merged into [scope] in place
    ([Node.generate], line 217), and the test [ast.matches(self.rhs)]
    evaluated to [v], a boolean or an exception. [Failed e]: the
    generation raised [e]. *)
Inductive attempt : Type :=
  | Generated (updates : scope) (verdict : result bool)
  | Failed (e : exn).

(** What [generate] has done when the attempts listed are over. *)
Inductive outcome : Type :=
  | Returned (new_scope : scope)
  | Raised (e : exn)
  | StillLooping (s : scope).

(** [ExcludeNode.generate], lines 634-650. The attempts are consumed in
    order, across the recursive call of the [except RecursionError]
    clause. *)
Fixpoint ExcludeNode_generate (attempts : list attempt) (depth : option Z) (s : scope)
  : outcome :=
  match attempts with
  | [] => StillLooping s
  | a :: rest =>
      let handle (e : exn) (s' : scope) : outcome :=
        match e with
        | RecursionError =>
            match depth with
            | None => Raised RecursionError
            | Some d =>
                if d >? 0 then ExcludeNode_generate rest (Some (d - 1)) s'
                else Raised RecursionError
            end
        | StopIteration => Raised ValueError
        | _ => Raised e
        end in
      match a with
      | Generated u v =>
          let new_scope := update s u in
          match v with
          | Ok false => Returned new_scope
          | Ok true => ExcludeNode_generate rest depth new_scope
          | Raise e => handle e new_scope
          end
      | Failed e => handle e s
      end
  end.

(** An attempt whose [lhs] matches [rhs]. *)
Definition rejected (u : scope) : attempt := Generated u (Ok true).

(** An attempt whose [lhs] does not match [rhs]. *)
Definition accepted (u : scope) : attempt := Generated u (Ok false).
End Loop.
Arguments Generated {V} updates verdict.
Arguments Failed {V} e.
Arguments Returned {V} new_scope.
Arguments Raised {V} e.
Arguments StillLooping {V} s.
Arguments update {V} s updates.
Arguments ExcludeNode_generate {V} attempts depth s.
Arguments rejected {V} u.
Arguments accepted {V} u.
End Exclude.

(** ** Execution (node-tree.py) *)

Module Execute.
Section Engine.
(** The environment handle, the keyword context and the scope values:
    all opaque to the engine. *)
Variables (E K V : Type).

Definition scope : Type := gmap String.string V.

(** [d.update(updates)] *)
Definition update (d updates : scope) : scope := updates ∪ d.

(** An attached action: it may act on the environment and may return
    updates. *)
Definition action : Type := E -> scope -> K -> E * option scope.

(** A generated node: its scope snapshot, its action, and its traversal
    order, where [None] stands for the node itself (as in the
    [traversal_order] argument of [generate]). *)
Inductive Node : Type := mkNode {
  scope_of : scope;
  exec_func : option action;
  traversal_order : list (option Node)
}.

(** The default order set by [Node.generate], line 208:
    [children + [self]]. *)
Definition post_order (children : list Node) : list (option Node) :=
  (Some <$> children) ++ [None].

(** [Node._execute], lines 315-318. *)
Definition _execute (f : option action) (env : E) (s : scope) (kw : K)
  : E * option scope :=
  match f with
  | Some act => act env s kw
  | None => (env, None)
  end.

(** The loop of [Node.execute], lines 291-300. [s] is the dict
    [self.scope]; [cum] is the dict [cumulative_updates], which the
    callee receives, updates in place and returns, so that the state
    of the dict after a child's call is the child's result. *)
Definition run_order
    (execute_child : Node -> E -> scope -> E * scope * Node)
    (f : option action) (kw : K)
  : list (option Node) -> E -> scope -> scope
    -> E * scope * scope * list (option Node) :=
  fix loop order env cum s :=
    match order with
    | [] => (env, cum, s, [])
    | None :: order' =>
        let s1 := update s cum in
        let r := _execute f env s1 kw in
        let cum1 := update cum (default ∅ r.2) in
        let '(env2, cum2, s2, rest) := loop order' r.1 cum1 s1 in
        (env2, cum2, s2, None :: rest)
    | Some child :: order' =>
        let '(env1, new_updates, child1) := execute_child child env cum in
        let cum1 := update new_updates new_updates in
        let '(env2, cum2, s2, rest) := loop order' env1 cum1 s in
        (env2, cum2, s2, Some child1 :: rest)
    end.

(** [Node.execute], lines 290-301, on a node whose scope its caller has
    just updated with [merged] ([node.scope.update(cumulative_updates)]
    of the caller's loop), if it has a caller. The result is the
    environment, the updates returned, and the node with the scopes as
    the call leaves them. *)
Fixpoint execute_in (merged : option scope) (self : Node)
    (env : E) (updates : scope) (kw : K) {struct self} : E * scope * Node :=
  let s0 :=
    match merged with
    | Some c => update (scope_of self) c
    | None => scope_of self
    end in
  let '(env', cum', s', order') :=
    run_order (fun child env cum => execute_in (Some cum) child env cum kw)
      (exec_func self) kw (traversal_order self) env updates s0 in
  (env', cum', mkNode s' (exec_func self) order').

(** A top-level call [node.execute(env, updates, **kwargs)]. *)
Definition execute (self : Node) (env : E) (updates : scope) (kw : K)
  : E * scope * Node :=
  execute_in None self env updates kw.

(** A node without children, in the default order. *)
Definition leaf (s : scope) (f : option action) : Node :=
  mkNode s f (post_order []).

(** The traversal in the words of the specification, for the children of
    a node: each child in turn, left to right, executes on the
    environment and on the cumulative updates left by the children
    before it. *)
Fixpoint execute_children (cs : list Node) (env : E) (cum : scope) (kw : K)
  : E * scope * list Node :=
  match cs with
  | [] => (env, cum, [])
  | c :: cs' =>
      let r1 := execute_in (Some cum) c env cum kw in
      let r2 := execute_children cs' r1.1.1 r1.1.2 kw in
      (r2.1.1, r2.1.2, r1.2 :: r2.2)
  end.
End Engine.
Arguments update {V} d updates.
Arguments mkNode {E K V} scope_of exec_func traversal_order.
Arguments scope_of {E K V} n.
Arguments exec_func {E K V} n.
Arguments traversal_order {E K V} n.
Arguments post_order {E K V} children.
Arguments _execute {E K V} f env s kw.
Arguments run_order {E K V} execute_child f kw order env cum s.
Arguments execute_in {E K V} merged self env updates kw.
Arguments execute {E K V} self env updates kw.
Arguments leaf {E K V} s f.
Arguments execute_children {E K V} cs env cum kw.
End Execute.

(** ** Generation and the scope snapshot (node-tree.py) *)

Module Scope.

(** Dicts and the mutable values they hold are objects in a store, so
    that two references to one object are visible as such. A location
    is an index into the store; allocation appends. *)
Abbreviation loc := nat (only parsing).

Inductive val : Type :=
  | VInt (z : Z)
  | VRef (l : loc).

Inductive obj : Type :=
  | ODict (d : gmap String.string val)
  | OList (xs : list Z).

Abbreviation heap := (list obj) (only parsing).

(** A node as [Node.generate] sees it: its [scope] attribute ([None]
    while the attribute is not set) and the children handed over by
    the subclass. *)
Inductive Node : Type := mkNode {
  scope_of : option loc;
  children : list Node
}.

(** The dict stored at a location. *)
Definition dict_at (h : heap) (l : loc) : result (gmap String.string val) :=
  match h !! l with
  | Some (ODict d) => Ok d
  | _ => Raise AttributeError
  end.

(** The iterations of the loop of [Node.generate] (lines 212-217) over
    the children: [updates = node.generate(scope=node.scope) or {}]
    and [scope.update(updates)], on the in-flight dict at [sl].
    Reading [node.scope] on a node whose attribute is not set raises
    [AttributeError]. *)
Definition generate_children
    (generate_child : Node -> loc -> heap -> result (loc * Node * heap))
    (sl : loc)
  : list Node -> heap -> result (list Node * heap) :=
  fix loop cs h :=
    match cs with
    | [] => Ok ([], h)
    | c :: cs' =>
        match scope_of c with
        | None => Raise AttributeError
        | Some cl =>
            do r <- generate_child c cl h;
            let h1 := r.2 in
            do updates <- dict_at h1 r.1.1;
            do d <- dict_at h1 sl;
            do rest <- loop cs' (<[sl := ODict (updates ∪ d)]> h1);
            Ok (r.1.2 :: rest.1, rest.2)
        end
    end.

Section Generate.
(** The location of [Node.global_scope]. *)
Variable global_scope : loc.

(** [Node.generate], lines 199-222, in the default post-order
    ([children + [self]]): the children first, then
    [self.scope = scope.copy()], a new dict with the bindings of the
    in-flight dict. Returns the in-flight dict, the node and the
    store. *)
Fixpoint generate (self : Node) (scope : option loc) (h : heap) {struct self}
  : result (loc * Node * heap) :=
  let sl := default global_scope scope in
  do r <- generate_children (fun c cl h' => generate c (Some cl) h') sl
            (children self) h;
  do d <- dict_at r.2 sl;
  Ok (sl, mkNode (Some (length r.2)) r.1, r.2 ++ [ODict d]).
End Generate.

(** What an action that is handed a scope can read in it: each binding,
    with a reference followed to the object it points to. *)
Inductive seen : Type :=
  | SInt (z : Z)
  | SList (xs : list Z)
  | SDict (d : gmap String.string val)
  | SDangling.

Definition resolve (h : heap) (v : val) : seen :=
  match v with
  | VInt z => SInt z
  | VRef r =>
      match h !! r with
      | Some (OList xs) => SList xs
      | Some (ODict d) => SDict d
      | None => SDangling
      end
  end.


End Scope.

(** ** Rendering (both files) *)

Module Render.
Import Matcher.

(** The state of the process-wide pseudo-random source: the raw draws
    still to come. Every function of the program runs against it. *)
Abbreviation tape := (list nat) (only parsing).

(** A computation that may draw from the source and may raise. *)
Definition rand (A : Type) : Type := tape -> result A * tape.

Definition ret {A} (a : A) : rand A := fun t => (Ok a, t).

Definition raise {A} (e : exn) : rand A := fun t => (Raise e, t).

Definition bind {A B} (m : rand A) (k : A -> rand B) : rand B :=
  fun t =>
    match m t with
    | (Ok a, t') => k a t'
    | (Raise e, t') => (Raise e, t')
    end.

(** A computation that makes no draw: its result does not depend on
    the source, and it leaves the source as it found it. *)
Definition no_draw {A} (m : rand A) : Prop := exists r, forall t, m t = (r, t).

(** A computation whose result does not depend on the source. *)
Definition fixed_result {A} (m : rand A) : Prop := exists r, forall t, (m t).1 = r.

(** [random.choice(seq)]: [IndexError] on an empty sequence, else the
    element at an index below [len(seq)] taken from the next draw. *)
Definition choice {A} (seq : list A) : rand A :=
  fun t =>
    match seq with
    | [] => (Raise IndexError, t)
    | _ :: _ =>
        (match seq !! (hd 0%nat t mod length seq)%nat with
         | Some x => Ok x
         | None => Raise IndexError
         end, tl t)
    end.

(** [''.join(renders)], the renders run from left to right. *)
Fixpoint join_all (renders : list (rand String.string)) : rand String.string :=
  match renders with
  | [] => ret EmptyString
  | r :: rs =>
      bind r (fun s => bind (join_all rs) (fun s' => ret (String.append s s')))
  end.

(** [render] of node-tree.py: [StringNode.render] (line 360),
    [ConcatNode.render] (line 470, inherited by Repeat, Union and
    Optional), and [Node.render] (line 270) for the other classes. *)
Fixpoint render (n : Node) : rand String.string :=
  if isinstance n CConcatNode then join_all (map render (children n))
  else if isinstance n CStringNode then ret (string n)
  else raise NotImplemented.

(** [render] of artificial_grammar_toolkit.py: [UnionNode.render]
    (line 413, inherited by Optional) draws one of the children and
    renders it; [ConcatNode.render] (line 318); [StringNode.render]
    (line 171); [Node.render] (line 125). *)
Fixpoint render_init (n : Node) : rand String.string :=
  if isinstance n CUnionNode then
    bind (choice (map render_init (children n))) (fun chosen => chosen)
  else if isinstance n CConcatNode then join_all (map render_init (children n))
  else if isinstance n CStringNode then ret (string n)
  else raise NotImplemented.

(** The trees that the constructors of artificial_grammar_toolkit.py
    build: a Union (or Optional) holds the one child sampled with
    [N = 1]. *)
Fixpoint unions_resolved (n : Node) : bool :=
  (if isinstance n CUnionNode then Nat.eqb (length (children n)) 1 else true)
  && forallb unions_resolved (children n).
End Render.

(** ** Shapes of trees, for the statements about whole trees *)

Module Shape.

(** No node of the tree has an action ([exec_func is None] throughout). *)
Fixpoint no_actions {E K V : Type} (n : Execute.Node E K V) : bool :=
  match Execute.exec_func n with
  | None => true
  | Some _ => false
  end
  && forallb (fun entry =>
                match entry with
                | None => true
                | Some child => no_actions child
                end)
       (Execute.traversal_order n).

(** The number of nodes of a tree. *)
Fixpoint size (n : Scope.Node) : nat :=
  S (list_sum (map size (Scope.children n))).

(** Every node below the root has its [scope] attribute set. *)
Fixpoint descendants_scoped (n : Scope.Node) : bool :=
  forallb (fun child =>
             match Scope.scope_of child with
             | Some _ => descendants_scoped child
             | None => false
             end)
    (Scope.children n).

(** The tree is made of String (or Empty) leaves and of nodes of the
    Concat family whose generated children are such trees. *)
Fixpoint renderable (n : Matcher.Node) : bool :=
  if Matcher.isinstance n Matcher.CConcatNode
  then forallb renderable (Matcher.children n)
  else Matcher.isinstance n Matcher.CStringNode.
End Shape.

(** ** The method [matches], by class (node-tree.py) *)

Module Methods.
Section WithShuffle.
Variable shuffle : list (list Matcher.Node) -> list (list Matcher.Node).

(** [Node.matches], lines 329-331: the method of every class that does
    not define its own (a bare [Node], an Exclude). *)
Definition Node_matches (self syntax : Matcher.Node) : result bool :=
  if Matcher.same_object self syntax then Ok true else Raise NotImplemented.

(** The call [self.matches(syntax)]: [ConcatNode.matches] on the Concat
    family, [StringNode.matches] on String and Empty nodes,
    [Node.matches] otherwise. *)
Definition matches (self syntax : Matcher.Node) : result bool :=
  if Matcher.isinstance self Matcher.CConcatNode
  then Matcher.ConcatNode_matches shuffle self syntax
  else if Matcher.isinstance self Matcher.CStringNode
  then Ok (Matcher.StringNode_matches self syntax)
  else Node_matches self syntax.
End WithShuffle.
End Methods.

(** ** Repeat: the repetition count (artificial_grammar_toolkit.py) *)

Module Count.

(** [RepeatNode.__init__], lines 365-369: a count that is given is kept;
    otherwise the count is drawn and clamped. [drawn] is the integer
    [int(random.expovariate(exp_lambda))]. *)
Definition resolve (N : option Z) (drawn : Z) (min_count : Z) (max_count : option Z)
  : Z :=
  match N with
  | Some n => n
  | None =>
      let n1 := Z.max drawn min_count in
      match max_count with
      | Some m => Z.min n1 m
      | None => n1
      end
  end.
End Count.

(** ** Sampled concatenation, with the sequence types of the code *)

Module Concat.
Section Seq.
Context {A T : Type}.

(** The sequence values that the constructors and [generate] handle: a
    list, a tuple (what [itertools.combinations] yields), and the
    iterator returned by [map], whose elements are computed, and may
    raise, when it is consumed. *)
Inductive pyseq : Type :=
  | PyList (l : list A)
  | PyTuple (l : list A)
  | PyMap (pending : list (result A)).

(** [len(s)]: a [map] object has no length. *)
Definition len (s : pyseq) : result nat :=
  match s with
  | PyList l | PyTuple l => Ok (length l)
  | PyMap _ => Raise TypeError
  end.

(** Running an iterator to its end. *)
Fixpoint force (pending : list (result A)) : result (list A) :=
  match pending with
  | [] => Ok []
  | r :: rest => do x <- r; do xs <- force rest; Ok (x :: xs)
  end.

(** [s[i]]: a [map] object cannot be indexed. *)
Definition item (s : pyseq) (i : nat) : result A :=
  match s with
  | PyList l | PyTuple l =>
      match l !! i with
      | Some x => Ok x
      | None => Raise IndexError
      end
  | PyMap _ => Raise TypeError
  end.

(** [s + [self]] (node-tree.py, line 208): defined when [s] is a list.
    The result is given without the last element. *)
Definition plus_self (s : pyseq) : result (list A) :=
  match s with
  | PyList l => Ok l
  | PyTuple _ | PyMap _ => Raise TypeError
  end.

(** [[children[i] for i in indeces]] *)
Fixpoint select (children : pyseq) (indeces : list nat) : result (list A) :=
  match indeces with
  | [] => Ok []
  | i :: rest => do c <- item children i; do cs <- select children rest; Ok (c :: cs)
  end.

(** [TemplateNode(item)] and [EmptyNode()], whatever they give. *)
Variable TemplateNode : T -> result A.
Variable EmptyNode : result A.

(** [ConcatNode.__init__] of artificial_grammar_toolkit.py called with
    positional items, lines 293-310: the children handed to
    [super().__init__]. [sample] is what
    [random.sample(range(len(children)), N)] returns. *)
Definition ConcatNode_init_children
    (items : list T) (N : option Z) (sample : list nat) : result pyseq :=
  do children <-
    match items with
    | _ :: _ => Ok (PyMap (TemplateNode <$> items))
    | [] => do e <- EmptyNode; Ok (PyList [e])
    end;
  match N with
  | None => Ok children
  | Some n =>
      if negb (n >? 0) then Raise AssertionError
      else
        do l <- len children;
        if negb (Z.of_nat l >? n) then Raise AssertionError
        else do cs <- select children (merge_sort Nat.le sample); Ok (PyList cs)
  end.

(** [Node.__new__(item)], as [map(Node.__new__, items)] calls it
    (node-tree.py, line 425): the item is taken for [cls] and the
    parameter [template] is missing. *)
Definition Node_new_one_argument (item : T) : result A := Raise TypeError.

(** The attributes of a [ConcatNode] of node-tree.py that sampling reads
    and writes. [N] is [None] while the attribute is not set. *)
Record concat : Type := mkConcat {
  N : option Z;
  _all_children : pyseq;
  children_it : option (list (list A))
}.

(** The permutation drawn by [random.shuffle]. *)
Variable shuffle : list (list A) -> list (list A).

(** [ConcatNode.__init__] of node-tree.py called with positional items,
    lines 424-442. [self._all_children] is a [map] object; with a count,
    [itertools.combinations] runs it to its end, and rejects a negative
    count after that. *)
Definition ConcatNode_init (items : list T) (n : option Z) : result concat :=
  let pending :=
    match items with
    | _ :: _ => Node_new_one_argument <$> items
    | [] => []
    end in
  match n with
  | None => Ok (mkConcat None (PyMap pending) None)
  | Some k =>
      do pool <- force pending;
      if k <? 0 then Raise ValueError
      else Ok (mkConcat (Some k) (PyMap [])
                 (Some (shuffle (Sampling.combinations pool (Z.to_nat k)))))
  end.

(** [ConcatNode.generate] of node-tree.py, lines 452-467, up to the first
    use of the children in [Node.generate] in the default order
    ([children + [self]], line 208): the children and the node after
    the call. *)
Definition ConcatNode_generate (self : concat) (children : list A)
  : result (list A * concat) :=
  let self1 :=
    if (0 <? length children)%nat
    then mkConcat (N self) (PyMap (Ok <$> children)) (children_it self)
    else self in
  match N self1 with
  | None => Raise AttributeError
  | Some n =>
      do chosen <-
        (if negb (n =? 0) then
           if negb (n >? 0) then Raise AssertionError
           else
             do l <- len (_all_children self1);
             if negb (Z.of_nat l >? n) then Raise AssertionError
             else
               match children_it self1 with
               | None => Raise AttributeError
               | Some [] => Raise StopIteration
               | Some (c :: rest) =>
                   Ok (PyTuple c, mkConcat (N self1) (_all_children self1) (Some rest))
               end
         else Ok (_all_children self1, self1));
      do cs <- plus_self chosen.1;
      Ok (cs, chosen.2)
  end.
End Seq.
End Concat.

(** ** The loop test of Exclude, as written (node-tree.py) *)

Module ExcludeTest.

(** Line 639 tests [ast.matches(self.rhs)], and [ast] is bound neither in
    the method nor in the module: whenever the generation of [lhs]
    returns, the test raises [NameError]. These are the attempts the
    code can make. *)
Definition possible {V : Type} (a : Exclude.attempt V) : bool :=
  match a with
  | Exclude.Generated _ (Raise NameError) => true
  | Exclude.Generated _ _ => false
  | Exclude.Failed _ => true
  end.
End ExcludeTest.

(** ** The normalizer on strings: the call with the keyword context *)

Module LazyCall.
Section Call.
Variable K : Type.

(** Whether the keyword context has a key named [var]. *)
Variable has_var : K -> bool.

(** The call [_lazy_eval(template, **kwargs)] (node-tree.py, line 134;
    artificial_grammar_toolkit.py, line 248): a keyword named [var]
    collides with the positional parameter of [_lazy_eval], and the call
    raises [TypeError] before the body runs. *)
Definition Node_new_str (g : gmap String.string (Lazy.value K))
    (template : String.string) (kwargs : K) : result (Lazy.value K) :=
  if has_var kwargs then Raise TypeError
  else Lazy._lazy_eval g (Lazy.VStr template) kwargs.
End Call.
Arguments Node_new_str {K} has_var g template kwargs.
End LazyCall.

(** ** Execution in artificial_grammar_toolkit.py *)

Module ExecuteInit.
Section Engine.
Variables (E K V : Type).

Definition scope : Type := gmap String.string V.

(** An action, called as [exec_func(env, self.scope, **kwargs)]; the
    handle it gets is [None] in the calls made for children. What it
    returns is not used. *)
Definition action : Type := option E -> scope -> K -> option scope.

Inductive Node : Type := mkNode {
  scope_of : scope;
  exec_func : option action;
  children : list Node
}.

(** One call of an action: the handle, the scope and the keyword
    context it received. *)
Definition call : Type := (option E * scope * K)%type.

(** The keyword context [scope=scope] of the calls made for children. *)
Variable scope_keyword : scope -> K.

(** Reading a local variable: [UnboundLocalError] before it is
    assigned. *)
Definition read_local (x : option scope) : result scope :=
  match x with
  | Some v => Ok v
  | None => Raise UnboundLocalError
  end.

(** The loop of lines 139-140, [scope = c.execute(scope=scope,
    env=None) or scope], on the local variable [scope]. *)
Definition run_children
    (execute_child : Node -> scope -> list call * result scope)
  : list Node -> option scope -> list call * result (option scope) :=
  fix loop cs local :=
    match cs with
    | [] => ([], Ok local)
    | c :: cs' =>
        match read_local local with
        | Raise e => ([], Raise e)
        | Ok arg =>
            match execute_child c arg with
            | (calls, Raise e) => (calls, Raise e)
            | (calls, Ok returned) =>
                let '(calls', r) := loop cs' (Some returned) in
                (calls ++ calls', r)
            end
        end
    end.

(** [Node.execute], lines 137-141: the node's own action first, then the
    children, then [return scope]. The result is the calls of actions
    made, in order, and what the call returns or raises. *)
Fixpoint execute (self : Node) (env : option E) (kw : K) {struct self}
  : list call * result scope :=
  let own :=
    match exec_func self with
    | Some f => [(env, scope_of self, kw)]
    | None => []
    end in
  match run_children (fun c arg => execute c None (scope_keyword arg))
          (children self) None with
  | (calls, Raise e) => (own ++ calls, Raise e)
  | (calls, Ok local) => (own ++ calls, read_local local)
  end.
End Engine.
Arguments mkNode {E K V} scope_of exec_func children.
Arguments scope_of {E K V} n.
Arguments exec_func {E K V} n.
Arguments children {E K V} n.
Arguments execute {E K V} scope_keyword self env kw.
End ExecuteInit.

(** * Properties *)

(** ** Repeat *)

Section RepeatFacts.
Context {T : Type}.
Variables (item : T) (sep last_sep : option T).

Lemma append_opt_app (items : list T) (x : option T) :
  Repeat.append_opt items x = items ++ Repeat.opt_list x.
Proof. destruct x; simpl; [done | by rewrite app_nil_r]. Qed.

(** The last [n] iterations of the constructor's loop append the
    specified sequence of length [n]. *)
Lemma init_loop_suffix (R n a : nat) (acc : list T) :
  (a + n = R)%nat ->
  for_each (Repeat.init_body item sep last_sep (Z.of_nat R)) (seq a n) acc
  = Ok (acc ++ Repeat.repeat_spec item sep last_sep n).
Proof.
  revert a acc. induction n as [|n IH]; intros a acc Han.
  - simpl. by rewrite app_nil_r.
  - cbn [seq for_each Repeat.init_body rbind].
    rewrite IH by lia. f_equal.
    unfold Repeat.append_sep.
    destruct n as [|[|n]].
    + replace (Z.of_nat a <? Z.of_nat R - 2) with false by lia.
      replace (Z.of_nat a =? Z.of_nat R - 2) with false by lia.
      simpl. by rewrite app_nil_r.
    + replace (Z.of_nat a <? Z.of_nat R - 2) with false by lia.
      replace (Z.of_nat a =? Z.of_nat R - 2) with true by lia.
      cbn [Repeat.repeat_spec].
      unfold Repeat.final_gap. destruct last_sep.
      * by rewrite <- !app_assoc.
      * rewrite append_opt_app. by rewrite <- !app_assoc.
    + replace (Z.of_nat a <? Z.of_nat R - 2) with true by lia.
      rewrite append_opt_app.
      change (Repeat.repeat_spec item sep last_sep (S (S (S n))))
        with (item :: Repeat.opt_list sep
                ++ Repeat.repeat_spec item sep last_sep (S (S n))).
      by rewrite <- !app_assoc.
Qed.

(** The constructor of artificial_grammar_toolkit.py builds the
    specified child sequence, for every count. *)
Lemma RepeatNode_init_items_spec (N : Z) :
  Repeat.RepeatNode_init_items item sep last_sep N
  = Ok (Repeat.repeat_spec item sep last_sep (Z.to_nat N)).
Proof.
  unfold Repeat.RepeatNode_init_items, range.
  destruct (Z.le_gt_cases N 0) as [Hle|Hgt].
  - replace (Z.to_nat N) with O by lia. done.
  - rewrite <- (Z2Nat.id N) at 1 by lia.
    by rewrite init_loop_suffix by lia.
Qed.

(** The specified sequence holds the item [R] times... *)
Lemma repeat_spec_zero : Repeat.repeat_spec item sep last_sep 0 = [].
Proof. done. Qed.

(** ...and the generation loop of node-tree.py raises at its first
    iteration, for every positive count. *)
Lemma RepeatNode_generate_items_raises (R : Z) :
  1 <= R ->
  Repeat.RepeatNode_generate_items sep last_sep R = Raise IndexError.
Proof.
  intros HR. unfold Repeat.RepeatNode_generate_items, range.
  destruct (Z.to_nat R) as [|k] eqn:Hk; [lia|]. done.
Qed.

Lemma RepeatNode_generate_items_zero (R : Z) :
  R <= 0 ->
  Repeat.RepeatNode_generate_items sep last_sep R = Ok [].
Proof.
  intros HR. unfold Repeat.RepeatNode_generate_items, range.
  by replace (Z.to_nat R) with O by lia.
Qed.
End RepeatFacts.

(** C6. Repeat separator placement, at [Repeat("a", sep=",",
    last_sep=" and ", repititions=2)]: the specified child sequence is
    ["a"; " and "; "a"], the constructor of artificial_grammar_toolkit.py
    builds it, and [RepeatNode.generate] of node-tree.py raises
    [IndexError] instead. *)
Theorem C6_repeat_generate_items_diverges :
  Repeat.repeat_spec "a"%string (Some ","%string) (Some " and "%string) 2
    = ["a"; " and "; "a"]%string
  /\ Repeat.RepeatNode_init_items "a"%string (Some ","%string) (Some " and "%string) 2
     = Ok ["a"; " and "; "a"]%string
  /\ Repeat.RepeatNode_generate_items (Some ","%string) (Some " and "%string) 2
     = Raise IndexError.
Proof. repeat split. Qed.

(** ** Combinations *)

Section CombinationFacts.
Context {A : Type}.
Implicit Types (pool c : list A) (r : nat).

Lemma combinations_length pool r :
  length (Sampling.combinations pool r) = Sampling.binomial (length pool) r.
Proof.
  revert r. induction pool as [|x pool IH]; intros [|r]; simpl; try done.
  by rewrite length_app, length_fmap, !IH.
Qed.

(** Every combination is a subsequence of the pool, of the requested
    length: the pool's relative order is preserved. *)
Lemma combinations_sublist pool r c :
  c ∈ Sampling.combinations pool r -> c `sublist_of` pool /\ length c = r.
Proof.
  revert r c. induction pool as [|x pool IH]; intros [|r] c; simpl.
  - intros ->%list_elem_of_singleton. split; [constructor | done].
  - by intros ?%elem_of_nil.
  - intros ->%list_elem_of_singleton. split; [apply sublist_nil_l | done].
  - rewrite elem_of_app, list_elem_of_fmap.
    intros [(c' & -> & Hc')|Hc].
    + destruct (IH _ _ Hc') as [Hs Hl]. split; [by constructor | simpl; lia].
    + destruct (IH _ _ Hc) as [Hs Hl]. split; [by constructor | done].
Qed.

(** ... and every subsequence of that length is among them. *)
Lemma combinations_complete pool c :
  c `sublist_of` pool -> c ∈ Sampling.combinations pool (length c).
Proof.
  induction 1 as [|x c pool Hs IH|x c pool Hs IH]; simpl.
  - apply list_elem_of_singleton; done.
  - apply elem_of_app. left. by apply list_elem_of_fmap_2.
  - destruct c as [|y c]; simpl in *.
    + apply list_elem_of_singleton; done.
    + apply elem_of_app. by right.
Qed.

Lemma combinations_NoDup pool r :
  NoDup pool -> NoDup (Sampling.combinations pool r).
Proof.
  revert r. induction pool as [|x pool IH]; intros [|r] Hnd; simpl;
    try (apply NoDup_singleton); try (apply NoDup_nil_2).
  apply NoDup_cons in Hnd as [Hx Hnd].
  apply NoDup_app. split_and!.
  - apply NoDup_fmap_2; [|by apply IH]. by intros ?? [=].
  - intros c (c' & -> & _)%list_elem_of_fmap Hin.
    apply combinations_sublist in Hin as [Hs _].
    apply Hx. eapply elem_of_sublist; [|exact Hs]. by left.
  - by apply IH.
Qed.
Lemma binomial_pos (p r : nat) : (r <= p)%nat -> (0 < Sampling.binomial p r)%nat.
Proof.
  revert r. induction p as [|p IH]; intros [|r] Hr; simpl; try lia.
  specialize (IH r ltac:(lia)). lia.
Qed.
End CombinationFacts.

(** ** The matcher *)

Section MatcherFacts.
Variable shuffle : list (list Matcher.Node) -> list (list Matcher.Node).
Implicit Types (ast cst g : Matcher.Node).

(** On two nodes of the Concat family [is_legal] is [ConcatNode.matches],
    whatever their own classes are. *)
Lemma is_legal_concat ast cst :
  Matcher.isinstance ast Matcher.CConcatNode = true ->
  Matcher.isinstance cst Matcher.CConcatNode = true ->
  Matcher.is_legal shuffle ast cst = Matcher.ConcatNode_matches shuffle ast cst.
Proof.
  intros Ha Hc. destruct ast. unfold Matcher.ConcatNode_matches.
  cbn [Matcher.is_legal]. rewrite Ha, Hc. reflexivity.
Qed.

Lemma same_object_refl g : Matcher.same_object g g = true.
Proof. apply Nat.eqb_refl. Qed.

(** Round trip, Concat family: the derivation is the grammar object. *)
Lemma is_legal_generated_concat g chosen :
  Matcher.isinstance g Matcher.CConcatNode = true ->
  Matcher.is_legal shuffle (Matcher.generated g chosen) g = Ok true.
Proof.
  intros Hg. rewrite is_legal_concat; [|exact Hg|exact Hg].
  unfold Matcher.ConcatNode_matches, Matcher.same_object. simpl.
  by rewrite Nat.eqb_refl.
Qed.

(** Round trip, Empty. *)
Lemma is_legal_empty g :
  Matcher.class g = Matcher.CEmptyNode ->
  Matcher.is_legal shuffle g g = Ok true.
Proof.
  intros Hg. destruct g. simpl in Hg. subst. reflexivity.
Qed.

(** A String node that is not an Empty node reaches [LiteralNode]. *)
Lemma is_legal_string_raises ast cst :
  Matcher.class ast = Matcher.CStringNode ->
  Matcher.is_legal shuffle ast cst = Raise NameError.
Proof.
  intros Hg. destruct ast. simpl in Hg. subst. reflexivity.
Qed.

(** The branches of [is_legal] for Repeat, Union and Optional are never
    taken: every such node is a [ConcatNode]. *)
Lemma concat_family_shadows ast c :
  c = Matcher.CRepeatNode \/ c = Matcher.CUnionNode \/ c = Matcher.COptionalNode ->
  Matcher.isinstance ast c = true ->
  Matcher.isinstance ast Matcher.CConcatNode = true.
Proof.
  unfold Matcher.isinstance.
  intros [->|[->| ->]]; destruct (Matcher.class ast); simpl; congruence.
Qed.
End MatcherFacts.

(** C1. Matcher round trip, at the String grammar [g = StringNode("a")]:
    [StringNode.matches] accepts [g] against itself, and [is_legal] raises
    [NameError] instead of returning [True], for every draw of the
    shuffle. *)
Theorem C1_is_legal_string_raises :
  forall shuffle,
    let g := Matcher.StringNode 0 "a" in
    Matcher.StringNode_matches (Matcher.generated g []) g = true
    /\ Matcher.is_legal shuffle (Matcher.generated g []) g = Raise NameError.
Proof. intros shuffle. split; reflexivity. Qed.

(** C8. Variant mismatch, at a generated Union [x] (its chosen child an
    Empty node) and the grammar [g = ConcatNode(E(), E(), N=1)]: the
    classes differ and [is_legal(x, g)] is [True]. *)
Theorem C8_is_legal_union_against_concat :
  let x := Matcher.generated
             (Matcher.UnionNode 1 [Matcher.EmptyNode 2; Matcher.EmptyNode 3])
             [Matcher.EmptyNode 2] in
  let g := Matcher.ConcatNode 4 (Some 1) [Matcher.EmptyNode 5; Matcher.EmptyNode 6] in
  Matcher.class x <> Matcher.class g
  /\ Matcher.is_legal (fun l => l) x g = Ok true
  /\ Matcher.is_legal reverse x g = Ok true.
Proof. split_and!; [discriminate | reflexivity | reflexivity]. Qed.

(** ** The normalizer on strings *)

Section LazyFacts.
Context {K : Type}.
Implicit Types (g : gmap String.string (Lazy.value K)) (kw : K).

Lemma locals_lookup (var : Lazy.value K) kw (name : String.string) :
  Lazy.locals var kw !! name
  = if decide (name = "var"%string) then Some var
    else if decide (name = "kwargs"%string) then Some (Lazy.VKwargs kw)
    else None.
Proof.
  unfold Lazy.locals.
  destruct (decide (name = "var"%string)) as [->|Hv].
  - by rewrite lookup_insert_eq.
  - rewrite lookup_insert_ne by done.
    destruct (decide (name = "kwargs"%string)) as [->|Hk].
    + by rewrite lookup_insert_eq.
    + by rewrite lookup_insert_ne, lookup_empty by done.
Qed.

(** A template that is itself callable is invoked with the context. *)
Lemma lazy_eval_callable g (f : K -> result (Lazy.value K)) kw :
  Lazy._lazy_eval g (Lazy.VCallable f) kw = f kw.
Proof. done. Qed.
(** A name that is not a local and is bound in the globals resolves to
    the global binding. *)
Lemma lazy_eval_global g (name : String.string) kw (v : Lazy.value K) :
  Lazy.locals (Lazy.VStr name) kw !! name = None ->
  g !! name = Some v ->
  Lazy.Node_new_str g name kw = Ok v.
Proof.
  intros Hl Hg. unfold Lazy.Node_new_str, Lazy._lazy_eval. by rewrite Hl, Hg.
Qed.
End LazyFacts.

(** ** Exclude *)

Section ExcludeFacts.
Context {V : Type}.
Implicit Types (s u : gmap String.string V) (us : list (gmap String.string V)).
Implicit Types (depth : option Z) (rest : list (Exclude.attempt V)).

(** Rejected attempts leave their updates in the scope and keep the
    loop going, whatever the depth. *)
Lemma rejected_prefix us rest depth s :
  Exclude.ExcludeNode_generate ((Exclude.rejected <$> us) ++ rest) depth s
  = Exclude.ExcludeNode_generate rest depth (foldl Exclude.update s us).
Proof.
  revert s. induction us as [|u us IH]; intros s; [done|].
  simpl. apply IH.
Qed.
End ExcludeFacts.

(** ** Execution *)

Section ExecuteFacts.
Context {E K V : Type}.
Implicit Types (d c s cum u : gmap String.string V) (env : E) (kw : K).
Implicit Types (f : option (Execute.action E K V)).
Implicit Types (order : list (option (Execute.Node E K V))).

Lemma update_idem d c : Execute.update (Execute.update d c) c = Execute.update d c.
Proof.
  unfold Execute.update.
  by rewrite (assoc_L (∪)), (idemp_L (∪)).
Qed.

Lemma update_self d : Execute.update d d = d.
Proof. unfold Execute.update. by rewrite (idemp_L (∪)). Qed.

Lemma update_empty d : Execute.update d ∅ = d.
Proof. unfold Execute.update. by rewrite (left_id_L ∅ (∪)). Qed.

(** One step of the loop at a child: the child executes on the
    cumulative updates, and the loop goes on with what it returns. *)
Lemma run_order_child ec f kw (child : Execute.Node E K V) order env cum s :
  Execute.run_order ec f kw (Some child :: order) env cum s
  = let r1 := ec child env cum in
    let r2 := Execute.run_order ec f kw order r1.1.1 r1.1.2 s in
    (r2.1.1.1, r2.1.1.2, r2.1.2, Some r1.2 :: r2.2).
Proof.
  cbn [Execute.run_order]. destruct (ec child env cum) as [[env1 new] child1].
  rewrite update_self. cbn [fst snd].
  by destruct (Execute.run_order ec f kw order env1 new s) as [[[? ?] ?] ?].
Qed.

(** One step of the loop at the node itself: the cumulative updates are
    merged into its scope, its action runs on that scope, and what the
    action returns is merged into the cumulative updates. *)
Lemma run_order_self ec f kw order env cum s :
  Execute.run_order ec f kw (None :: order) env cum s
  = let s1 := Execute.update s cum in
    let r := Execute._execute f env s1 kw in
    let r2 := Execute.run_order ec f kw order r.1
                (Execute.update cum (default ∅ r.2)) s1 in
    (r2.1.1.1, r2.1.1.2, r2.1.2, None :: r2.2).
Proof.
  cbn [Execute.run_order].
  by destruct (Execute.run_order ec f kw order _ _ _) as [[[? ?] ?] ?].
Qed.

(** A node without children, called from its parent's loop. *)
Lemma execute_in_leaf s f env cum kw :
  Execute.execute_in (Some cum) (Execute.leaf s f) env cum kw
  = let r := Execute._execute f env (Execute.update s cum) kw in
    (r.1, Execute.update cum (default ∅ r.2), Execute.leaf (Execute.update s cum) f).
Proof.
  unfold Execute.leaf, Execute.post_order.
  cbn [Execute.execute_in Execute.scope_of Execute.exec_func
       Execute.traversal_order fmap list_fmap app].
  rewrite run_order_self. cbn [Execute.run_order]. cbv zeta. cbn [fst snd].
  by rewrite update_idem.
Qed.
(** The loop over a post-order: the children as the specification
    words it, then the node itself. *)
Lemma run_order_post_order f kw (cs : list (Execute.Node E K V)) env cum s :
  Execute.run_order
    (fun child env' cum' => Execute.execute_in (Some cum') child env' cum' kw)
    f kw (Execute.post_order cs) env cum s
  = let rc := Execute.execute_children cs env cum kw in
    let s1 := Execute.update s rc.1.2 in
    let r := Execute._execute f rc.1.1 s1 kw in
    (r.1, Execute.update rc.1.2 (default ∅ r.2), s1, Execute.post_order rc.2).
Proof.
  revert env cum. induction cs as [|c cs IH]; intros env cum.
  - unfold Execute.post_order. cbn [fmap list_fmap app].
    rewrite run_order_self. reflexivity.
  - unfold Execute.post_order in *. cbn [fmap list_fmap app].
    rewrite run_order_child. cbv zeta. rewrite IH. reflexivity.
Qed.

(** [execute] on any node in the default post-order. *)
Lemma execute_in_post_order (merged : option (gmap String.string V))
    s f (cs : list (Execute.Node E K V)) env u kw :
  Execute.execute_in merged (Execute.mkNode s f (Execute.post_order cs)) env u kw
  = let s0 := match merged with Some c => Execute.update s c | None => s end in
    let rc := Execute.execute_children cs env u kw in
    let s1 := Execute.update s0 rc.1.2 in
    let r := Execute._execute f rc.1.1 s1 kw in
    (r.1, Execute.update rc.1.2 (default ∅ r.2),
     Execute.mkNode s1 f (Execute.post_order rc.2)).
Proof.
  cbn [Execute.execute_in Execute.scope_of Execute.exec_func Execute.traversal_order].
  rewrite run_order_post_order. reflexivity.
Qed.
End ExecuteFacts.

(** ** The scope snapshot *)

Section ScopeFacts.
Variable global_scope : Scope.loc.
Implicit Types (h : Scope.heap) (self : Scope.Node) (l sl : Scope.loc).


End ScopeFacts.




(** ** Rendering *)

Section RenderFacts.
Implicit Types (n c : Matcher.Node) (t : list nat).
Implicit Types (m : Render.rand String.string).

(** Induction on a node through its generated children. *)
Lemma Node_children_ind (P : Matcher.Node -> Prop) :
  (forall n, Forall P (Matcher.children n) -> P n) -> forall n, P n.
Proof.
  intros H. fix IH 1. intros n. apply H.
  destruct n as [? ? ? ? ? ch ? ? ? ? ?]. cbn [Matcher.children].
  induction ch as [|c ch IHch]; constructor; [apply IH | exact IHch].
Qed.

Lemma join_all_no_draw (ms : list (Render.rand String.string)) :
  Forall Render.no_draw ms -> Render.no_draw (Render.join_all ms).
Proof.
  induction 1 as [|m ms [r Hm] _ [rs Hms]]; cbn [Render.join_all].
  - by exists (Ok EmptyString).
  - unfold Render.bind. destruct r as [s|e].
    + destruct rs as [s'|e'].
      * exists (Ok (String.append s s')). intros t. by rewrite Hm, Hms.
      * exists (Raise e'). intros t. by rewrite Hm, Hms.
    + exists (Raise e). intros t. by rewrite Hm.
Qed.

Lemma join_all_fixed_result (ms : list (Render.rand String.string)) :
  Forall Render.fixed_result ms -> Render.fixed_result (Render.join_all ms).
Proof.
  induction 1 as [|m ms [r Hm] _ [rs Hms]]; cbn [Render.join_all].
  - by exists (Ok EmptyString).
  - unfold Render.bind. destruct r as [s|e].
    + destruct rs as [s'|e'].
      * exists (Ok (String.append s s')). intros t.
        specialize (Hm t). destruct (m t) as [[a|e] t1]; simplify_eq/=.
        specialize (Hms t1).
        by destruct (Render.join_all ms t1) as [[a'|e'] t2]; simplify_eq/=.
      * exists (Raise e'). intros t.
        specialize (Hm t). destruct (m t) as [[a|e] t1]; simplify_eq/=.
        specialize (Hms t1).
        by destruct (Render.join_all ms t1) as [[a'|e''] t2]; simplify_eq/=.
    + exists (Raise e). intros t.
      specialize (Hm t). by destruct (m t) as [[a|e0] t1]; simplify_eq/=.
Qed.

(** [render] of node-tree.py makes no draw. *)
Lemma render_no_draw n : Render.no_draw (Render.render n).
Proof.
  induction n as [n IH] using Node_children_ind.
  destruct n as [id cl str cnt pool ch it sp lsp l r].
  cbn [Render.render Matcher.children Matcher.string] in *.
  destruct (Matcher.isinstance _ Matcher.CConcatNode).
  - apply join_all_no_draw. by apply Forall_map.
  - destruct (Matcher.isinstance _ Matcher.CStringNode).
    + by exists (Ok str).
    + by exists (Raise NotImplemented).
Qed.

Lemma append_empty_r (s : String.string) : String.append s EmptyString = s.
Proof.
  induction s as [|a s IH]; [done|].
  change (String a (String.append s EmptyString) = String a s). by rewrite IH.
Qed.
Lemma choice_singleton {A} (x : A) t :
  Render.choice [x] t = (Ok x, tl t).
Proof.
  unfold Render.choice. cbn [length]. by rewrite Nat.mod_1_r.
Qed.

(** [render] of artificial_grammar_toolkit.py, on a tree built by its
    constructors: the string does not depend on the draws, although
    each Union met makes one. *)
Lemma render_init_fixed_result n :
  Render.unions_resolved n = true -> Render.fixed_result (Render.render_init n).
Proof.
  induction n as [n IH] using Node_children_ind.
  destruct n as [id cl str cnt pool ch it sp lsp l r].
  cbn [Render.render_init Render.unions_resolved Matcher.children Matcher.string] in *.
  intros [Hu Hall]%andb_true_iff.
  assert (Hch : Forall Render.fixed_result (map Render.render_init ch)).
  { apply Forall_map. rewrite forallb_forall in Hall.
    rewrite Forall_forall in IH. apply Forall_forall. intros c Hc.
    apply IH; [done|]. by apply Hall, list_elem_of_In. }
  destruct (Matcher.isinstance _ Matcher.CUnionNode).
  - destruct ch as [|c [|c' ch]]; try discriminate Hu.
    apply Forall_cons in Hch as [[rc Hc] _].
    exists rc. intros t. unfold Render.bind. cbn [map].
    rewrite choice_singleton. apply Hc.
  - destruct (Matcher.isinstance _ Matcher.CConcatNode).
    + by apply join_all_fixed_result.
    + destruct (Matcher.isinstance _ Matcher.CStringNode).
      * by exists (Ok str).
      * by exists (Raise NotImplemented).
Qed.

(** In that file the Union's render does consult the source. *)
Lemma render_init_union_draws id pool c t :
  Render.render_init (Matcher.generated (Matcher.UnionNode id pool) [c]) t
  = Render.render_init c (tl t).
Proof.
  cbn [Render.render_init Matcher.generated Matcher.UnionNode Matcher.children
       Matcher.class Matcher.isinstance Matcher.issubclass map].
  unfold Render.bind. by rewrite choice_singleton.
Qed.
End RenderFacts.

(** * Further properties of the code *)

(** ** Repeat: the sequence the constructor builds *)

Section RepeatSequence.
Context {T : Type}.
Variables (item : T) (sep last_sep : option T).

Lemma repeat_spec_head (R : nat) :
  head (Repeat.repeat_spec item sep last_sep (S R)) = Some item.
Proof. by destruct R as [|[|R]]. Qed.

Lemma repeat_spec_last (R : nat) :
  last (Repeat.repeat_spec item sep last_sep (S R)) = Some item.
Proof.
  induction R as [|R IH]; [done|].
  destruct R as [|R].
  - cbn [Repeat.repeat_spec]. by rewrite app_comm_cons, last_snoc.
  - change (Repeat.repeat_spec item sep last_sep (S (S (S R))))
      with ((item :: Repeat.opt_list sep)
              ++ Repeat.repeat_spec item sep last_sep (S (S R))).
    rewrite last_app, IH. done.
Qed.
End RepeatSequence.

(** X1. [RepeatNode.__init__] of artificial_grammar_toolkit.py builds,
    for every count [N] (a count that is not positive included), the
    sequence the item [N] times with [sep] in every gap but the last and
    [last_sep], else [sep], in the last gap. *)
Theorem X1_repeat_init_builds_sequence {T : Type}
    (item : T) (sep last_sep : option T) (N : Z) :
  Repeat.RepeatNode_init_items item sep last_sep N
  = Ok (Repeat.repeat_spec item sep last_sep (Z.to_nat N)).
Proof. apply RepeatNode_init_items_spec. Qed.

(** X2. For a count of at least one, the sequence built by
    [RepeatNode.__init__] begins and ends with the item: no separator
    leads or trails, whatever the separators are. *)
Theorem X2_repeat_init_no_outer_separator {T : Type}
    (item : T) (sep last_sep : option T) (N : Z) :
  1 <= N ->
  exists items,
    Repeat.RepeatNode_init_items item sep last_sep N = Ok items
    /\ head items = Some item
    /\ last items = Some item.
Proof.
  intros HN. rewrite RepeatNode_init_items_spec.
  destruct (Z.to_nat N) as [|R] eqn:HR; [lia|].
  eexists. split; [reflexivity|]. split.
  - apply repeat_spec_head.
  - apply repeat_spec_last.
Qed.

(** The theorem at [Repeat("a", sep=",", N=3)]. *)
Lemma X2_repeat_init_no_outer_separator_witness :
  exists items,
    Repeat.RepeatNode_init_items "a"%string (Some ","%string) None 3 = Ok items
    /\ head items = Some "a"%string
    /\ last items = Some "a"%string.
Proof. apply (X2_repeat_init_no_outer_separator "a"%string (Some ","%string) None 3). lia. Defined.

(** X3. Without separators [RepeatNode.__init__] builds the item [N]
    times and nothing else; with both separators and a count of at least
    two it builds [2N - 1] elements. *)
Theorem X3_repeat_init_lengths {T : Type} (item : T) (N : Z) :
  Repeat.RepeatNode_init_items item None None N = Ok (replicate (Z.to_nat N) item)
  /\ (forall s l items,
        2 <= N ->
        Repeat.RepeatNode_init_items item (Some s) (Some l) N = Ok items ->
        Z.of_nat (length items) = 2 * N - 1).
Proof.
  split.
  - rewrite RepeatNode_init_items_spec. f_equal.
    induction (Z.to_nat N) as [|R IH]; [done|].
    destruct R as [|R]; [done|].
    destruct R as [|R]; [done|].
    change (Repeat.repeat_spec item None None (S (S (S R))))
      with (item :: Repeat.repeat_spec item None None (S (S R))).
    by rewrite IH.
  - intros s l items HN. rewrite RepeatNode_init_items_spec. intros [= <-].
    assert (H : forall R : nat,
              length (Repeat.repeat_spec item (Some s) (Some l) (S (S R)))
              = (2 * R + 3)%nat).
    { induction R as [|R IH]; [done|].
      change (Repeat.repeat_spec item (Some s) (Some l) (S (S (S R))))
        with (item :: s :: Repeat.repeat_spec item (Some s) (Some l) (S (S R))).
      cbn [length]. rewrite IH. lia. }
    destruct (Z.to_nat N) as [|[|R]] eqn:HR; [lia|lia|].
    rewrite H. lia.
Qed.

(** The theorem at [Repeat("a", sep=",", last_sep=" and ", N=3)]. *)
Lemma X3_repeat_init_lengths_witness :
  Z.of_nat (length ["a"; ","; "a"; " and "; "a"]%string) = 2 * 3 - 1.
Proof.
  apply (proj2 (X3_repeat_init_lengths "a"%string 3) ","%string " and "%string);
    [lia | reflexivity].
Defined.

(** X4. [RepeatNode.generate] of node-tree.py raises [IndexError] for
    every repetition count of at least one, whatever the separators: its
    loop reads [items[0]] from the empty list. *)
Theorem X4_repeat_generate_raises {T : Type} (sep last_sep : option T) (R : Z) :
  1 <= R ->
  Repeat.RepeatNode_generate_items sep last_sep R = Raise IndexError.
Proof. apply RepeatNode_generate_items_raises. Qed.

(** The theorem at five repetitions. *)
Lemma X4_repeat_generate_raises_witness :
  Repeat.RepeatNode_generate_items (Some ","%string) None 5 = Raise IndexError.
Proof. apply X4_repeat_generate_raises. lia. Defined.

(** ** The matcher *)

Section MatcherVerdicts.
Variable shuffle : list (list Matcher.Node) -> list (list Matcher.Node).
Implicit Types (ast cst : Matcher.Node) (xs ys : list Matcher.Node).

(** [any] is true only through an element on which the test is true. *)
Lemma any_of_true {X : Type} (f : X -> result bool) (l : list X) :
  Matcher.any_of f l = Ok true -> exists x, x ∈ l /\ f x = Ok true.
Proof.
  induction l as [|x l IH]; cbn [Matcher.any_of]; [discriminate|].
  destruct (f x) as [[|]|e] eqn:Hx; cbn [rbind]; try discriminate.
  - intros _. exists x. split; [by left | done].
  - intros (y & Hy & Hfy)%IH. exists y. split; [by right | done].
Qed.

(** [all] over a zip of two sequences of one length is true only when
    every pair passes. *)
Lemma all_legal_true xs ys :
  length xs = length ys ->
  Matcher.all_legal shuffle xs ys = Ok true ->
  Forall2 (fun a b => Matcher.is_legal shuffle a b = Ok true) xs ys.
Proof.
  revert ys. induction xs as [|x xs IH]; intros [|y ys] Hlen; try discriminate.
  - constructor.
  - cbn [Matcher.all_legal].
    destruct (Matcher.is_legal shuffle x y) as [[|]|e] eqn:Hxy;
      cbn [rbind]; try discriminate.
    intros H. constructor; [done|]. apply IH; [by injection Hlen | done].
Qed.
End MatcherVerdicts.

(** X11. Variant mismatches that [is_legal] does reject: a node of the
    Concat family against a grammar node outside it, an Exclude node
    against a node that is not an Exclude, and an Empty node against a
    node that is not an Empty, are illegal. *)
Theorem X11_is_legal_rejects_other_family
    (shuffle : list (list Matcher.Node) -> list (list Matcher.Node))
    (ast cst : Matcher.Node) :
  (Matcher.isinstance ast Matcher.CConcatNode = true ->
   Matcher.isinstance cst Matcher.CConcatNode = false ->
   Matcher.is_legal shuffle ast cst = Ok false)
  /\ (Matcher.class ast = Matcher.CExcludeNode ->
      Matcher.isinstance cst Matcher.CExcludeNode = false ->
      Matcher.is_legal shuffle ast cst = Ok false)
  /\ (Matcher.class ast = Matcher.CEmptyNode ->
      Matcher.isinstance cst Matcher.CEmptyNode = false ->
      Matcher.is_legal shuffle ast cst = Ok false).
Proof.
  destruct ast as [id cl str cnt pool ch it sp lsp l r].
  unfold Matcher.isinstance. cbn [Matcher.class]. split_and!.
  - intros Ha Hc. cbn [Matcher.is_legal]. unfold Matcher.isinstance.
    cbn [Matcher.class]. by rewrite Ha, Hc.
  - intros -> Hc. cbn [Matcher.is_legal]. unfold Matcher.isinstance.
    cbn [Matcher.class]. by rewrite Hc.
  - intros -> Hc. cbn [Matcher.is_legal]. unfold Matcher.isinstance.
    cbn [Matcher.class]. by rewrite Hc.
Qed.

(** The theorem at a Union against a String node. *)
Lemma X11_is_legal_rejects_other_family_witness :
  Matcher.is_legal reverse
    (Matcher.UnionNode 1 [Matcher.EmptyNode 2; Matcher.EmptyNode 3])
    (Matcher.StringNode 4 "a") = Ok false.
Proof.
  apply (proj1 (X11_is_legal_rejects_other_family reverse
                  (Matcher.UnionNode 1 [Matcher.EmptyNode 2; Matcher.EmptyNode 3])
                  (Matcher.StringNode 4 "a"))); reflexivity.
Defined.

(** X12. [is_legal] raises [NameError] whenever the generated node is a
    String node that is not Empty, or a bare [Node], whatever the
    grammar node: the chain of tests reaches the unbound name
    [LiteralNode]. *)
Theorem X12_is_legal_string_name_error
    (shuffle : list (list Matcher.Node) -> list (list Matcher.Node))
    (ast cst : Matcher.Node) :
  Matcher.class ast = Matcher.CStringNode \/ Matcher.class ast = Matcher.CNode ->
  Matcher.is_legal shuffle ast cst = Raise NameError.
Proof.
  intros Hast. destruct ast as [id cl str cnt pool ch it sp lsp l r].
  cbn [Matcher.class] in Hast. by destruct Hast as [-> | ->].
Qed.

(** The theorem at two String nodes with different texts. *)
Lemma X12_is_legal_string_name_error_witness :
  Matcher.is_legal reverse (Matcher.StringNode 0 "a") (Matcher.StringNode 1 "b")
  = Raise NameError.
Proof. apply X12_is_legal_string_name_error. by left. Defined.

(** X13. A [True] from [ConcatNode.matches] on two distinct objects is
    backed by the grammar: the generated node has as many children as
    the grammar's count asks (as the pool has, without a count), and the
    children are pairwise legal against a subsequence of the grammar's
    pool with that many elements (against the whole pool, without a
    count), whatever permutation the shuffle draws. *)
Theorem X13_matches_true_has_combination
    (shuffle : list (list Matcher.Node) -> list (list Matcher.Node))
    (self syntax : Matcher.Node) :
  (forall l, shuffle l ≡ₚ l) ->
  Matcher.same_object self syntax = false ->
  Matcher.ConcatNode_matches shuffle self syntax = Ok true ->
  exists c,
    c `sublist_of` Matcher._all_children syntax
    /\ length c = length (Matcher.children self)
    /\ (forall n, Matcher.N syntax = Some n ->
                  Z.of_nat (length (Matcher.children self)) = n)
    /\ (Matcher.N syntax = None -> c = Matcher._all_children syntax)
    /\ Forall2 (fun a b => Matcher.is_legal shuffle a b = Ok true)
         (Matcher.children self) c.
Proof.
  intros Hperm Hdiff. unfold Matcher.ConcatNode_matches. rewrite Hdiff.
  destruct (negb (Matcher.isinstance syntax Matcher.CConcatNode)); [discriminate|].
  destruct (Matcher.N syntax) as [n|].
  - destruct (Z.of_nat (length (Matcher.children self)) =? n) eqn:Hcount;
      cbn [negb]; [|discriminate].
    apply Z.eqb_eq in Hcount.
    intros (c & Hc & Hall)%any_of_true.
    rewrite Hperm in Hc. apply combinations_sublist in Hc as [Hsub Hlen].
    exists c. split_and!; [done | lia | by intros ? [= <-] | done |].
    apply all_legal_true; [lia | done].
  - destruct (Nat.eqb (length (Matcher.children self))
                (length (Matcher._all_children syntax))) eqn:Hcount;
      cbn [negb]; [|discriminate].
    apply Nat.eqb_eq in Hcount.
    intros (c & Hc & Hall)%any_of_true.
    apply list_elem_of_singleton in Hc as ->.
    exists (Matcher._all_children syntax).
    split_and!; [done | done | done | done |].
    by apply all_legal_true.
Qed.

(** The theorem at a generated Union with an Empty child and a Concat
    sampled to one child of a pool of two Empty nodes. *)
Lemma X13_matches_true_has_combination_witness :
  let x := Matcher.generated
             (Matcher.UnionNode 1 [Matcher.EmptyNode 2; Matcher.EmptyNode 3])
             [Matcher.EmptyNode 2] in
  let g := Matcher.ConcatNode 4 (Some 1) [Matcher.EmptyNode 5; Matcher.EmptyNode 6] in
  exists c,
    c `sublist_of` Matcher._all_children g
    /\ length c = length (Matcher.children x)
    /\ (forall n, Matcher.N g = Some n -> Z.of_nat (length (Matcher.children x)) = n)
    /\ (Matcher.N g = None -> c = Matcher._all_children g)
    /\ Forall2 (fun a b => Matcher.is_legal reverse a b = Ok true)
         (Matcher.children x) c.
Proof.
  intros x g. apply X13_matches_true_has_combination.
  - intros l. apply reverse_Permutation.
  - reflexivity.
  - reflexivity.
Defined.

(** ** The normalizer: names of the resolver itself *)

(** X14. [_lazy_eval] looks a name up in its own locals before the
    globals, and its locals are its two parameters: the template
    ["kwargs"] resolves to the keyword mapping and the template ["var"]
    to the text ["var"], whatever the globals bind these names to. *)
Theorem X14_lazy_eval_parameter_names {K : Type}
    (g : gmap String.string (Lazy.value K)) (kw : K) :
  Lazy.Node_new_str g "kwargs" kw = Ok (Lazy.VKwargs kw)
  /\ Lazy.Node_new_str g "var" kw = Ok (Lazy.VStr "var").
Proof.
  unfold Lazy.Node_new_str, Lazy._lazy_eval. rewrite !locals_lookup.
  split; reflexivity.
Qed.

(** ** Exclude: errors and the depth *)

Section ExcludeErrors.
Context {V : Type}.
Implicit Types (s u : gmap String.string V) (rest : list (Exclude.attempt V)).

Lemma recursion_errors_within_depth (k : nat) (d : Z) rest s :
  Z.of_nat k <= d ->
  Exclude.ExcludeNode_generate
    (replicate k (Exclude.Failed RecursionError) ++ rest) (Some d) s
  = Exclude.ExcludeNode_generate rest (Some (d - Z.of_nat k)) s.
Proof.
  revert d. induction k as [|k IH]; intros d Hk.
  - cbn [replicate app]. by replace (d - Z.of_nat 0) with d by lia.
  - cbn [replicate app Exclude.ExcludeNode_generate].
    replace (d >? 0) with true by lia. rewrite IH by lia.
    by replace (d - 1 - Z.of_nat k) with (d - Z.of_nat (S k)) by lia.
Qed.

End ExcludeErrors.

(** X15. The [depth] of an Exclude node counts the [RecursionError]s it
    absorbs: with [depth = d >= 0], after [k <= d] of them in a row the
    generation goes on with depth [d - k], and the one after the [d]-th
    is raised. *)
Theorem X15_exclude_depth_counts_recursion_errors {V : Type}
    (k : nat) (d : Z) (rest : list (Exclude.attempt V)) (s : gmap String.string V) :
  0 <= d ->
  (Z.of_nat k <= d ->
   Exclude.ExcludeNode_generate
     (replicate k (Exclude.Failed RecursionError) ++ rest) (Some d) s
   = Exclude.ExcludeNode_generate rest (Some (d - Z.of_nat k)) s)
  /\ (d < Z.of_nat k ->
      Exclude.ExcludeNode_generate
        (replicate k (Exclude.Failed RecursionError) ++ rest) (Some d) s
      = Exclude.Raised RecursionError).
Proof.
  intros Hd. split; [apply recursion_errors_within_depth|].
  intros Hk.
  assert (exists j : nat, k = (Z.to_nat d + S j)%nat) as [j ->]
    by (exists (k - Z.to_nat d - 1)%nat; lia).
  rewrite replicate_add, <- app_assoc.
  rewrite (recursion_errors_within_depth (Z.to_nat d) d) by lia.
  cbn [replicate app Exclude.ExcludeNode_generate].
  rewrite Z2Nat.id by exact Hd. rewrite Z.sub_diag. reflexivity.
Qed.

(** The theorem at [depth = 1]: one error is absorbed, the second is
    raised. *)
Lemma X15_exclude_depth_counts_recursion_errors_witness :
  Exclude.ExcludeNode_generate
    (replicate 2 (Exclude.Failed RecursionError)
       ++ [Exclude.accepted ({[ "b"%string := 2 ]} : gmap String.string Z)])
    (Some 1) ∅
  = Exclude.Raised RecursionError.
Proof.
  apply (proj2 (X15_exclude_depth_counts_recursion_errors 2 1
                  [Exclude.accepted ({[ "b"%string := 2 ]} : gmap String.string Z)]
                  ∅ ltac:(lia))).
  simpl. lia.
Defined.

(** X16. [ExcludeNode.generate] catches [RecursionError] and
    [StopIteration] only: any other exception, raised by the generation
    of [lhs] or by the test against [rhs] (the [NameError] of an unbound
    name among them), comes out unchanged, whatever the depth and after
    any number of rejected attempts. *)
Theorem X16_exclude_other_exceptions_propagate {V : Type}
    (us : list (gmap String.string V)) (u s : gmap String.string V)
    (depth : option Z) (rest : list (Exclude.attempt V)) (e : exn) :
  e <> RecursionError -> e <> StopIteration ->
  Exclude.ExcludeNode_generate
    ((Exclude.rejected <$> us) ++ Exclude.Failed e :: rest) depth s
  = Exclude.Raised e
  /\ Exclude.ExcludeNode_generate
       ((Exclude.rejected <$> us) ++ Exclude.Generated u (Raise e) :: rest) depth s
     = Exclude.Raised e.
Proof.
  intros H1 H2. rewrite !rejected_prefix. cbn [Exclude.ExcludeNode_generate].
  by destruct e.
Qed.

(** The theorem at a test that raises [NameError] on the first attempt. *)
Lemma X16_exclude_other_exceptions_propagate_witness :
  Exclude.ExcludeNode_generate
    ((Exclude.rejected <$> [])
       ++ Exclude.Generated ({[ "a"%string := 1 ]} : gmap String.string Z)
            (Raise NameError) :: [])
    None ∅
  = Exclude.Raised NameError.
Proof.
  apply (X16_exclude_other_exceptions_propagate [] {[ "a"%string := 1 ]} ∅ None []
           NameError); discriminate.
Defined.

(** ** Execution on whole trees *)

Section ExecuteTrees.
Context {E K V : Type}.
Implicit Types (n : Execute.Node E K V) (env : E) (kw : K).
Implicit Types (cum u s : gmap String.string V).
Implicit Types (order : list (option (Execute.Node E K V))).

(** Induction on a node through its traversal order. *)
Lemma Node_order_ind (P : Execute.Node E K V -> Prop) :
  (forall n,
     Forall (fun entry => match entry with Some c => P c | None => True end)
       (Execute.traversal_order n) -> P n) ->
  forall n, P n.
Proof.
  intros H. fix IH 1. intros n. apply H.
  destruct n as [s f order]. cbn [Execute.traversal_order].
  induction order as [|[c|] order IHo]; constructor;
    [apply IH | exact IHo | exact I | exact IHo].
Qed.

Lemma update_keeps_keys cum u : dom cum ⊆ dom (Execute.update cum u).
Proof. unfold Execute.update, Execute.scope. rewrite dom_union_L. set_solver. Qed.

(** The loop never removes a key from the cumulative updates, when the
    children do not. *)
Lemma run_order_keeps_keys ec (f : option (Execute.action E K V)) kw order :
  Forall (fun entry =>
            match entry with
            | Some c => forall env cum, dom cum ⊆ dom (ec c env cum).1.2
            | None => True
            end) order ->
  forall env cum s,
    dom cum ⊆ dom (Execute.run_order ec f kw order env cum s).1.1.2.
Proof.
  induction 1 as [|[c|] order Hc _ IH]; intros env cum s.
  - reflexivity.
  - rewrite run_order_child. cbv zeta. cbn [fst snd].
    etrans; [apply (Hc env cum) | apply IH].
  - rewrite run_order_self. cbv zeta. cbn [fst snd].
    etrans; [apply update_keeps_keys | apply IH].
Qed.

(** Without actions the loop leaves the environment and the cumulative
    updates as they are, when the children do. *)
Lemma run_order_no_actions ec kw order :
  Forall (fun entry =>
            match entry with
            | Some c => forall env cum, (ec c env cum).1 = (env, cum)
            | None => True
            end) order ->
  forall env cum s,
    (Execute.run_order ec None kw order env cum s).1.1 = (env, cum).
Proof.
  induction 1 as [|[c|] order Hc _ IH]; intros env cum s.
  - reflexivity.
  - rewrite run_order_child. cbv zeta. cbn [fst snd].
    specialize (Hc env cum). destruct (ec c env cum) as [[env1 cum1] c1].
    cbn [fst snd] in *. injection Hc as -> ->.
    specialize (IH env cum s).
    destruct (Execute.run_order ec None kw order env cum s) as [[[? ?] ?] ?].
    exact IH.
  - rewrite run_order_self. cbv zeta. cbn [fst snd Execute._execute default].
    rewrite update_empty.
    specialize (IH env cum (Execute.update s cum)).
    destruct (Execute.run_order ec None kw order env cum _) as [[[? ?] ?] ?].
    exact IH.
Qed.

Lemma execute_in_unfold merged n env u kw :
  (Execute.execute_in merged n env u kw).1
  = (Execute.run_order
       (fun child env' cum' => Execute.execute_in (Some cum') child env' cum' kw)
       (Execute.exec_func n) kw (Execute.traversal_order n) env u
       (match merged with
        | Some c => Execute.update (Execute.scope_of n) c
        | None => Execute.scope_of n
        end)).1.1.
Proof.
  destruct n as [s f order].
  cbn [Execute.execute_in Execute.scope_of Execute.exec_func Execute.traversal_order].
  by destruct (Execute.run_order _ f kw order env u _) as [[[? ?] ?] ?].
Qed.

Lemma execute_in_keeps_keys n :
  forall merged env u kw, dom u ⊆ dom (Execute.execute_in merged n env u kw).1.2.
Proof.
  induction n as [n IH] using Node_order_ind. intros merged env u kw.
  rewrite execute_in_unfold. apply run_order_keeps_keys.
  eapply Forall_impl; [exact IH|]. intros [c|] Hc; [|done].
  intros env' cum'. apply Hc.
Qed.

Lemma execute_in_no_actions n :
  Shape.no_actions n = true ->
  forall merged env u kw, (Execute.execute_in merged n env u kw).1 = (env, u).
Proof.
  induction n as [n IH] using Node_order_ind. intros Hn merged env u kw.
  rewrite execute_in_unfold.
  destruct n as [s f order].
  cbn [Shape.no_actions Execute.exec_func Execute.traversal_order] in *.
  apply andb_true_iff in Hn as [Hf Hall]. destruct f; [discriminate|].
  apply run_order_no_actions.
  rewrite forallb_forall in Hall. rewrite Forall_forall in IH.
  apply Forall_forall. intros [c|] Hc; [|done].
  intros env' cum'. apply (IH (Some c) Hc).
  apply (Hall (Some c)). by apply list_elem_of_In.
Qed.
End ExecuteTrees.

(** X18. [Node.execute] never drops an update: on every generated tree,
    in any traversal order and with any actions, each key of the updates
    passed in is a key of the updates returned. *)
Theorem X18_execute_keeps_update_keys {E K V : Type}
    (n : Execute.Node E K V) (env : E) (u : gmap String.string V) (kw : K) :
  dom u ⊆ dom (Execute.execute n env u kw).1.2.
Proof. apply execute_in_keeps_keys. Qed.

(** X19. On a tree in which no node has an action, [Node.execute] leaves
    the environment as it is and returns the updates it was given, in
    any traversal order. *)
Theorem X19_execute_without_actions {E K V : Type}
    (n : Execute.Node E K V) (env : E) (u : gmap String.string V) (kw : K) :
  Shape.no_actions n = true ->
  (Execute.execute n env u kw).1 = (env, u).
Proof. intros Hn. by apply execute_in_no_actions. Qed.

(** The theorem at a node with two childless children, in post-order. *)
Lemma X19_execute_without_actions_witness :
  let leaf := Execute.leaf (E := nat) (K := unit) (V := Z) ∅ None in
  let n := Execute.mkNode ∅ None (Execute.post_order [leaf; leaf]) in
  (Execute.execute n 0%nat {[ "a"%string := 1 ]} tt).1 = (0%nat, {[ "a"%string := 1 ]}).
Proof. intros leaf n. apply X19_execute_without_actions. reflexivity. Defined.

(** ** Generation on whole trees *)

Section GenerateTrees.
Variable global_scope : nat.
Implicit Types (h : list Scope.obj) (n c : Scope.Node) (cs : list Scope.Node).

(** Induction on a node through its children. *)
Lemma Scope_Node_ind (P : Scope.Node -> Prop) :
  (forall n, Forall P (Scope.children n) -> P n) -> forall n, P n.
Proof.
  intros H. fix IH 1. intros n. apply H.
  destruct n as [sc cs]. cbn [Scope.children].
  induction cs as [|c cs IHcs]; constructor; [apply IH | exact IHcs].
Qed.

(** What a successful pass over the children tells, given what a
    successful generation of each child tells. *)
Lemma generate_children_ok
    (gen : Scope.Node -> nat -> list Scope.obj -> result (nat * Scope.Node * list Scope.obj))
    (sl : nat) cs :
  Forall (fun c => forall cl h r, gen c cl h = Ok r ->
                     length r.2 = (length h + Shape.size c)%nat
                     /\ Shape.descendants_scoped c = true) cs ->
  forall h r,
    Scope.generate_children gen sl cs h = Ok r ->
    length r.2 = (length h + list_sum (map Shape.size cs))%nat
    /\ forallb (fun child =>
                  match Scope.scope_of child with
                  | Some _ => Shape.descendants_scoped child
                  | None => false
                  end) cs = true.
Proof.
  induction 1 as [|c cs Hc _ IH]; intros h r.
  - cbn [Scope.generate_children]. intros [= <-]. cbn. split; [lia | done].
  - cbn [Scope.generate_children].
    destruct (Scope.scope_of c) as [cl|] eqn:Hcl; [|discriminate].
    destruct (gen c cl h) as [r1|e] eqn:Hgen; [|discriminate]. cbn [rbind].
    destruct (Scope.dict_at r1.2 r1.1.1) as [upd|e]; [|discriminate]. cbn [rbind].
    destruct (Scope.dict_at r1.2 sl) as [d|e]; [|discriminate]. cbn [rbind].
    destruct (Scope.generate_children gen sl cs _) as [rest|e] eqn:Hrest;
      [|discriminate]. cbn [rbind].
    intros [= <-]. cbn [fst snd].
    destruct (Hc cl h r1 Hgen) as [Hlen Hsc].
    destruct (IH _ _ Hrest) as [Hlen' Hall'].
    rewrite length_insert in Hlen'. split.
    + rewrite Hlen', Hlen. simpl. lia.
    + cbn [forallb]. by rewrite Hcl, Hsc, Hall'.
Qed.

Lemma generate_ok n :
  forall (scope : option nat) h r,
    Scope.generate global_scope n scope h = Ok r ->
    length r.2 = (length h + Shape.size n)%nat
    /\ Shape.descendants_scoped n = true.
Proof.
  induction n as [n IH] using Scope_Node_ind. intros scope h r.
  destruct n as [sc cs]. cbn [Scope.children] in IH.
  cbn [Scope.generate Scope.children Shape.size Shape.descendants_scoped].
  destruct (Scope.generate_children _ _ cs h) as [rc|e] eqn:Hcs; [|discriminate].
  cbn [rbind].
  destruct (Scope.dict_at rc.2 _) as [d|e]; [|discriminate]. cbn [rbind].
  intros [= <-]. cbn [fst snd].
  eapply generate_children_ok in Hcs as [Hlen Hall].
  - split; [|exact Hall]. rewrite length_app. cbn [length]. lia.
  - eapply Forall_impl; [exact IH|]. intros c Hc cl h' r'. apply Hc.
Qed.
End GenerateTrees.

(** X20. A generation that returns has allocated exactly one new dict
    per node of the tree, the snapshot of that node: the store grows by
    the number of nodes. *)
Theorem X20_generate_one_snapshot_per_node
    (global_scope : nat) (n : Scope.Node) (scope : option nat)
    (h : list Scope.obj) (sl : nat) (n' : Scope.Node) (h' : list Scope.obj) :
  Scope.generate global_scope n scope h = Ok (sl, n', h') ->
  length h' = (length h + Shape.size n)%nat.
Proof. intros H. by apply generate_ok in H as [? _]. Qed.

(** The theorem at a node with one child that has a scope already. *)
Lemma X20_generate_one_snapshot_per_node_witness :
  let h0 := [Scope.ODict {[ "x"%string := Scope.VInt 1 ]}; Scope.ODict ∅] in
  let n := Scope.mkNode None [Scope.mkNode (Some 1%nat) []] in
  length (h0 ++ [Scope.ODict ∅; Scope.ODict {[ "x"%string := Scope.VInt 1 ]}])
  = (length h0 + Shape.size n)%nat.
Proof.
  intros h0 n.
  apply (X20_generate_one_snapshot_per_node 0 n (Some 0%nat) h0 0%nat
           (Scope.mkNode (Some 3%nat) [Scope.mkNode (Some 2%nat) []])).
  reflexivity.
Defined.

(** X21. [Node.generate] hands each child the child's own [scope]
    attribute, so it returns only on a tree in which every node below
    the root has that attribute set already: a tree with a child that
    was never given a scope cannot be generated. *)
Theorem X21_generate_needs_scoped_descendants
    (global_scope : nat) (n : Scope.Node) (scope : option nat)
    (h : list Scope.obj) (r : nat * Scope.Node * list Scope.obj) :
  Scope.generate global_scope n scope h = Ok r ->
  Shape.descendants_scoped n = true.
Proof. intros H. by apply generate_ok in H as [_ ?]. Qed.

(** The theorem at a node with one child that has a scope already. *)
Lemma X21_generate_needs_scoped_descendants_witness :
  Shape.descendants_scoped (Scope.mkNode None [Scope.mkNode (Some 1%nat) []]) = true.
Proof.
  apply (X21_generate_needs_scoped_descendants 0
           (Scope.mkNode None [Scope.mkNode (Some 1%nat) []]) (Some 0%nat)
           [Scope.ODict {[ "x"%string := Scope.VInt 1 ]}; Scope.ODict ∅]
           (0%nat, Scope.mkNode (Some 3%nat) [Scope.mkNode (Some 2%nat) []],
            [Scope.ODict {[ "x"%string := Scope.VInt 1 ]}; Scope.ODict ∅;
             Scope.ODict ∅; Scope.ODict {[ "x"%string := Scope.VInt 1 ]}])).
  reflexivity.
Defined.

Section GeneratePropagation.
Implicit Types (h : list Scope.obj) (d : gmap String.string Scope.val).

Lemma dict_at_lookup h (l : nat) d :
  h !! l = Some (Scope.ODict d) -> Scope.dict_at h l = Ok d.
Proof. intros H. unfold Scope.dict_at. by rewrite H. Qed.
End GeneratePropagation.

(** X22. Generating a node with one childless child: the child is
    generated against its own previous scope, not against the in-flight
    scope, and its snapshot is a copy of that previous scope; all the
    bindings of the child's scope are then merged into the in-flight
    scope, the child's winning on a common key, and the parent's
    snapshot is a copy of the result. *)
Theorem X22_generate_child_scope_flows_up
    (global_scope : nat) (sc : option nat) (cl sl : nat) (h : list Scope.obj)
    (dc ds : gmap String.string Scope.val) :
  h !! cl = Some (Scope.ODict dc) ->
  h !! sl = Some (Scope.ODict ds) ->
  Scope.generate global_scope
    (Scope.mkNode sc [Scope.mkNode (Some cl) []]) (Some sl) h
  = Ok (sl,
        Scope.mkNode (Some (S (length h))) [Scope.mkNode (Some (length h)) []],
        <[sl := Scope.ODict (dc ∪ ds)]> (h ++ [Scope.ODict dc])
          ++ [Scope.ODict (dc ∪ ds)]).
Proof.
  intros Hcl Hsl.
  assert (Hcl_lt : (cl < length h)%nat) by (eapply lookup_lt_Some; exact Hcl).
  assert (Hsl_lt : (sl < length h)%nat) by (eapply lookup_lt_Some; exact Hsl).
  cbn [Scope.generate Scope.children Scope.generate_children Scope.scope_of
       default from_option id rbind fst snd].
  rewrite (dict_at_lookup h cl dc Hcl). cbn [rbind fst snd].
  rewrite (dict_at_lookup (h ++ [Scope.ODict dc]) cl dc)
    by (by rewrite lookup_app_l).
  cbn [rbind].
  rewrite (dict_at_lookup (h ++ [Scope.ODict dc]) sl ds)
    by (by rewrite lookup_app_l).
  cbn [rbind fst snd].
  rewrite (dict_at_lookup _ sl (dc ∪ ds))
    by (apply list_lookup_insert_eq; rewrite length_app; cbn [length]; lia).
  cbn [rbind]. rewrite length_insert, length_app. cbn [length].
  by replace (length h + 1)%nat with (S (length h)) by lia.
Qed.

(** The theorem at a child whose scope binds [k] to 2, under an
    in-flight scope that binds [k] to 1 and [x] to 1. *)
Lemma X22_generate_child_scope_flows_up_witness :
  let dc : gmap String.string Scope.val := {[ "k"%string := Scope.VInt 2 ]} in
  let ds : gmap String.string Scope.val :=
    {[ "k"%string := Scope.VInt 1; "x"%string := Scope.VInt 1 ]} in
  let h := [Scope.ODict ds; Scope.ODict dc] in
  Scope.generate 0 (Scope.mkNode None [Scope.mkNode (Some 1%nat) []]) (Some 0%nat) h
  = Ok (0%nat,
        Scope.mkNode (Some (S (length h))) [Scope.mkNode (Some (length h)) []],
        <[0%nat := Scope.ODict (dc ∪ ds)]> (h ++ [Scope.ODict dc])
          ++ [Scope.ODict (dc ∪ ds)]).
Proof.
  intros dc ds h.
  apply (X22_generate_child_scope_flows_up 0 None 1 0 h dc ds); reflexivity.
Defined.

(** ** Rendering whole trees *)

Section RenderTrees.
Implicit Types (n c g : Matcher.Node) (t : list nat).
Implicit Types (ms : list (Render.rand String.string)).

(** A list of renders joins to a string when each gives one, and raises
    what the first failing one raises. *)
Lemma join_all_renderable (cs : list Matcher.Node) :
  Forall (fun c =>
            forall t,
              (Shape.renderable c = true -> exists s, Render.render c t = (Ok s, t))
              /\ (Shape.renderable c = false ->
                  Render.render c t = (Raise NotImplemented, t))) cs ->
  forall t,
    (forallb Shape.renderable cs = true ->
     exists s, Render.join_all (map Render.render cs) t = (Ok s, t))
    /\ (forallb Shape.renderable cs = false ->
        Render.join_all (map Render.render cs) t = (Raise NotImplemented, t)).
Proof.
  induction 1 as [|c cs Hc _ IH]; intros t.
  - split; [by eexists | discriminate].
  - cbn [map Render.join_all forallb]. unfold Render.bind.
    destruct (Hc t) as [Hok Hbad]. destruct (IH t) as [IHok IHbad].
    destruct (Shape.renderable c).
    + destruct (Hok eq_refl) as [s ->]. cbn [andb].
      destruct (forallb Shape.renderable cs).
      * destruct (IHok eq_refl) as [s' ->]. split; [by eexists | discriminate].
      * rewrite (IHbad eq_refl). split; [discriminate | done].
    + rewrite (Hbad eq_refl). cbn [andb]. split; [discriminate | done].
Qed.

Lemma render_renderable n :
  forall t,
    (Shape.renderable n = true -> exists s, Render.render n t = (Ok s, t))
    /\ (Shape.renderable n = false -> Render.render n t = (Raise NotImplemented, t)).
Proof.
  induction n as [n IH] using Node_children_ind. intros t.
  destruct n as [id cl str cnt pool ch it sp lsp l r].
  cbn [Render.render Shape.renderable Matcher.children Matcher.string] in *.
  destruct (Matcher.isinstance _ Matcher.CConcatNode).
  - by apply join_all_renderable.
  - destruct (Matcher.isinstance _ Matcher.CStringNode).
    + split; [by eexists | discriminate].
    + split; [discriminate | done].
Qed.

(** The renders of String leaves join to the concatenation of their
    texts. *)
Lemma join_all_leaves (leaves : list (nat * String.string)) t :
  Render.join_all
    (map Render.render (map (fun p => Matcher.StringNode p.1 p.2) leaves)) t
  = (Ok (String.concat EmptyString (map snd leaves)), t).
Proof.
  induction leaves as [|[id s] leaves IH]; [done|].
  cbn [map Render.join_all fst snd]. unfold Render.bind.
  change (Render.render (Matcher.StringNode id s) t) with (Ok s, t).
  cbv beta iota. rewrite IH. unfold Render.ret. do 2 f_equal.
  destruct leaves as [|[id' s'] leaves]; [apply append_empty_r | done].
Qed.

(** An Empty node among the children adds nothing to the join. *)
Lemma join_all_skip_empty (xs ys : list Matcher.Node) (id : nat) t :
  Render.join_all (map Render.render (xs ++ Matcher.EmptyNode id :: ys)) t
  = Render.join_all (map Render.render (xs ++ ys)) t.
Proof.
  revert t. induction xs as [|x xs IH]; intros t.
  - cbn [app map Render.join_all]. unfold Render.bind.
    change (Render.render (Matcher.EmptyNode id) t) with (Ok EmptyString, t).
    cbv beta iota.
    by destruct (Render.join_all (map Render.render ys) t) as [[s|e] t'].
  - cbn [app map Render.join_all]. unfold Render.bind.
    destruct (Render.render x t) as [[s|e] t']; [|done].
    by rewrite IH.
Qed.

Lemma lookup_map {X Y : Type} (f : X -> Y) (l : list X) (i : nat) :
  map f l !! i = f <$> (l !! i).
Proof.
  revert i. induction l as [|x l IH]; intros [|i]; try done. apply IH.
Qed.
End RenderTrees.

(** X23. [render] of node-tree.py returns a string exactly on the trees
    made of String (or Empty) leaves and of Concat-family nodes over
    such trees; on every other tree (one that holds an Exclude node or a
    bare [Node] among the generated children) it raises the
    "Not implemented" exception of [Node.render]. It draws nothing from
    the random source in either case. *)
Theorem X23_render_succeeds_on_renderable (n : Matcher.Node) (t : list nat) :
  (Shape.renderable n = true -> exists s, Render.render n t = (Ok s, t))
  /\ (Shape.renderable n = false -> Render.render n t = (Raise NotImplemented, t)).
Proof. apply render_renderable. Qed.

(** The theorem at a Concat over a String node and an Exclude node. *)
Lemma X23_render_succeeds_on_renderable_witness :
  let ex := Matcher.mkNode 2 Matcher.CExcludeNode EmptyString None [] []
              None None None None None in
  let n := Matcher.generated (Matcher.ConcatNode 0 None [])
             [Matcher.StringNode 1 "a"; ex] in
  Render.render n [] = (Raise NotImplemented, []).
Proof.
  intros ex n.
  apply (proj2 (X23_render_succeeds_on_renderable n [])). reflexivity.
Defined.

(** X24. A generated node of the Concat family whose children are String
    nodes renders as the concatenation of their texts, in order. *)
Theorem X24_render_concat_of_strings
    (g : Matcher.Node) (leaves : list (nat * String.string)) (t : list nat) :
  Matcher.isinstance g Matcher.CConcatNode = true ->
  Render.render
    (Matcher.generated g (map (fun p => Matcher.StringNode p.1 p.2) leaves)) t
  = (Ok (String.concat EmptyString (map snd leaves)), t).
Proof.
  intros Hg. destruct g as [id cl str cnt pool ch it sp lsp l r].
  unfold Matcher.isinstance in Hg. cbn [Matcher.class] in Hg.
  cbn [Render.render Matcher.generated Matcher.children Matcher.oid Matcher.class
       Matcher.string Matcher.N Matcher._all_children Matcher.item Matcher.sep
       Matcher.last_sep Matcher.lhs Matcher.rhs].
  unfold Matcher.isinstance. cbn [Matcher.class]. rewrite Hg.
  apply join_all_leaves.
Qed.

(** The theorem at the children "press", " ", "A" of a Concat. *)
Lemma X24_render_concat_of_strings_witness :
  Render.render
    (Matcher.generated (Matcher.ConcatNode 0 None [])
       (map (fun p => Matcher.StringNode p.1 p.2)
          [(1%nat, "press"%string); (2%nat, " "%string); (3%nat, "A"%string)])) []
  = (Ok (String.concat EmptyString
           (map snd [(1%nat, "press"%string); (2%nat, " "%string); (3%nat, "A"%string)])), []).
Proof. apply X24_render_concat_of_strings. reflexivity. Defined.

(** X25. An Empty node among the generated children of a Concat-family
    node adds nothing to the render: the node renders as it does without
    that child. So an Optional that chose its Empty branch leaves no
    trace in the text around it. *)
Theorem X25_render_empty_child_is_neutral
    (g : Matcher.Node) (xs ys : list Matcher.Node) (id : nat) (t : list nat) :
  Matcher.isinstance g Matcher.CConcatNode = true ->
  Render.render (Matcher.generated g (xs ++ Matcher.EmptyNode id :: ys)) t
  = Render.render (Matcher.generated g (xs ++ ys)) t.
Proof.
  intros Hg. destruct g as [gid cl str cnt pool ch it sp lsp l r].
  unfold Matcher.isinstance in Hg. cbn [Matcher.class] in Hg.
  cbn [Render.render Matcher.generated Matcher.children Matcher.oid Matcher.class
       Matcher.string Matcher.N Matcher._all_children Matcher.item Matcher.sep
       Matcher.last_sep Matcher.lhs Matcher.rhs].
  unfold Matcher.isinstance. cbn [Matcher.class]. rewrite Hg.
  apply join_all_skip_empty.
Qed.

(** The theorem at the children "a", Empty, "b". *)
Lemma X25_render_empty_child_is_neutral_witness :
  Render.render
    (Matcher.generated (Matcher.ConcatNode 0 None [])
       ([Matcher.StringNode 1 "a"] ++ Matcher.EmptyNode 2 :: [Matcher.StringNode 3 "b"])) []
  = Render.render
      (Matcher.generated (Matcher.ConcatNode 0 None [])
         ([Matcher.StringNode 1 "a"] ++ [Matcher.StringNode 3 "b"])) [].
Proof. apply X25_render_empty_child_is_neutral. reflexivity. Defined.

(** ** Rendering in artificial_grammar_toolkit.py *)

(** X26. [UnionNode.render] of artificial_grammar_toolkit.py, on a Union
    (or Optional) that holds children: whatever the state of the random
    source, it consumes one draw and renders one of the node's children;
    on a Union without children it raises [IndexError]. *)
Theorem X26_union_render_init_picks_a_child (u : Matcher.Node) (t : list nat) :
  Matcher.isinstance u Matcher.CUnionNode = true ->
  (Matcher.children u = [] -> Render.render_init u t = (Raise IndexError, t))
  /\ (Matcher.children u <> [] ->
      exists c, c ∈ Matcher.children u
                /\ Render.render_init u t = Render.render_init c (tl t)).
Proof.
  intros Hu. destruct u as [id cl str cnt pool ch it sp lsp l r].
  unfold Matcher.isinstance in Hu. cbn [Matcher.class] in Hu.
  cbn [Render.render_init Matcher.children]. unfold Matcher.isinstance.
  cbn [Matcher.class]. rewrite Hu. unfold Render.bind. split.
  - intros ->. reflexivity.
  - intros Hne. destruct ch as [|c0 ch]; [done|].
    set (cs := c0 :: ch). unfold Render.choice.
    change (map Render.render_init cs)
      with (Render.render_init c0 :: map Render.render_init ch) at 1.
    cbv beta iota.
    change (Render.render_init c0 :: map Render.render_init ch)
      with (map Render.render_init cs).
    rewrite lookup_map, length_map.
    destruct (lookup_lt_is_Some_2 cs (hd 0%nat t mod length cs)%nat) as [c Hc].
    { apply Nat.mod_upper_bound. subst cs. cbn [length]. lia. }
    rewrite Hc. cbn [fmap option_fmap option_map].
    exists c. split; [by eapply list_elem_of_lookup_2 | done].
Qed.

(** The theorem at a Union holding two String nodes, with the next draw
    equal to 3. *)
Lemma X26_union_render_init_picks_a_child_witness :
  let u := Matcher.generated (Matcher.UnionNode 0 [])
             [Matcher.StringNode 1 "down"; Matcher.StringNode 2 "press"] in
  exists c, c ∈ Matcher.children u
            /\ Render.render_init u [3%nat] = Render.render_init c (tl [3%nat]).
Proof.
  intros u.
  apply (proj2 (X26_union_render_init_picks_a_child u [3%nat] eq_refl)).
  discriminate.
Defined.

(** X27. [render] of artificial_grammar_toolkit.py, on a tree in which
    every Union holds exactly one child (what the constructors build,
    with [N = 1]): the string rendered does not depend on the state of
    the random source, so two calls return the same string, although
    each Union met consumes a draw. *)
Theorem X27_render_init_same_string (n : Matcher.Node) (t1 t2 : list nat) :
  Render.unions_resolved n = true ->
  (Render.render_init n t1).1 = (Render.render_init n t2).1.
Proof.
  intros Hn. destruct (render_init_fixed_result n Hn) as [r Hr].
  by rewrite !Hr.
Qed.

(** The theorem at a Concat over a Union with one child. *)
Lemma X27_render_init_same_string_witness :
  let u := Matcher.generated (Matcher.UnionNode 1 []) [Matcher.StringNode 2 "down"] in
  let n := Matcher.generated (Matcher.ConcatNode 0 None [])
             [u; Matcher.StringNode 3 " now"] in
  (Render.render_init n [0%nat]).1 = (Render.render_init n [5%nat; 7%nat]).1.
Proof. intros u n. apply X27_render_init_same_string. reflexivity. Defined.

(** ** The method [matches] *)

(** X28. Every node matches itself: whatever its class and its
    contents, [n.matches(n)] returns [True] for a node of the Concat
    family and for a bare [Node] or an Exclude (by the identity test),
    and for a String or Empty node (by the comparison of the texts). *)
Theorem X28_matches_reflexive
    (shuffle : list (list Matcher.Node) -> list (list Matcher.Node))
    (n : Matcher.Node) :
  Methods.matches shuffle n n = Ok true.
Proof.
  unfold Methods.matches, Methods.Node_matches, Matcher.ConcatNode_matches,
    Matcher.StringNode_matches.
  rewrite same_object_refl.
  destruct (Matcher.isinstance n Matcher.CConcatNode); [done|].
  destruct (Matcher.isinstance n Matcher.CStringNode); [|done].
  by rewrite String.eqb_refl.
Qed.

(** ** Repeat: the count *)

(** X29. The repetition count of a Repeat in
    artificial_grammar_toolkit.py. A count that is given is used as it
    is, whatever the bounds. A drawn count lies between [min_count] and
    [max_count] when [min_count <= max_count]; it is [max_count], below
    [min_count], when the bounds are crossed; and without [max_count] it
    is the larger of the draw and [min_count]. *)
Theorem X29_repeat_count_clamped (drawn min_count : Z) :
  (forall n max_count, Count.resolve (Some n) drawn min_count max_count = n)
  /\ (forall m, min_count <= m ->
        min_count <= Count.resolve None drawn min_count (Some m) <= m)
  /\ (forall m, m < min_count ->
        Count.resolve None drawn min_count (Some m) = m)
  /\ Count.resolve None drawn min_count None = Z.max drawn min_count.
Proof.
  unfold Count.resolve. split_and!; [done | intros m Hm; lia | intros m Hm; lia | done].
Qed.

(** The theorem at a draw of 7 with the bounds 2 and 2, and with the
    crossed bounds 3 and 1. *)
Lemma X29_repeat_count_clamped_witness :
  2 <= Count.resolve None 7 2 (Some 2) <= 2
  /\ Count.resolve None 7 3 (Some 1) = 1.
Proof.
  split.
  - apply (proj1 (proj2 (X29_repeat_count_clamped 7 2))). lia.
  - apply (proj1 (proj2 (proj2 (X29_repeat_count_clamped 7 3)))). lia.
Defined.

(** * Sampling, executing, excluding and normalizing as the code runs *)

(** ** Sampled concatenation *)

Section ConcatFacts.
Context {A T : Type}.
Implicit Types (items : list T) (n : Z).

(** A node that the constructor of node-tree.py returns holds its pool
    as a [map] object. *)
Lemma ConcatNode_init_pool_is_map
    (shuffle : list (list A) -> list (list A)) items (n : option Z)
    (node : Concat.concat (A := A)) :
  Concat.ConcatNode_init shuffle items n = Ok node ->
  exists pending, Concat._all_children node = Concat.PyMap pending.
Proof.
  unfold Concat.ConcatNode_init. destruct n as [k|].
  - destruct (Concat.force _) as [pool|e]; [|discriminate]. cbn [rbind].
    destruct (k <? 0); [discriminate|]. intros [= <-]. by eexists.
  - intros [= <-]. by eexists.
Qed.

(** [generate] in the default order raises on every node whose pool is a
    [map] object, whatever children it is given. *)
Lemma ConcatNode_generate_raises (self : Concat.concat (A := A)) (children : list A) :
  (exists pending, Concat._all_children self = Concat.PyMap pending) ->
  exists e, Concat.ConcatNode_generate self children = Raise e.
Proof.
  intros [pending Hpool]. unfold Concat.ConcatNode_generate.
  set (self1 := if (0 <? length children)%nat then _ else self).
  assert (Hpool1 : exists p, Concat._all_children self1 = Concat.PyMap p).
  { unfold self1. destruct (0 <? length children)%nat; [by eexists | by eexists]. }
  destruct Hpool1 as [p Hp].
  destruct (Concat.N self1) as [k|]; [|by eexists].
  destruct (negb (k =? 0)).
  - destruct (negb (k >? 0)); [by eexists|].
    rewrite Hp. cbn [Concat.len rbind]. by eexists.
  - cbn [rbind fst]. rewrite Hp. cbn [Concat.plus_self rbind]. by eexists.
Qed.

(** With a positive count the failure is the [TypeError] of [len] on the
    [map] object. *)
Lemma ConcatNode_generate_sampled_type_error
    (self : Concat.concat (A := A)) (children : list A) n :
  (exists pending, Concat._all_children self = Concat.PyMap pending) ->
  Concat.N self = Some n -> 1 <= n ->
  Concat.ConcatNode_generate self children = Raise TypeError.
Proof.
  intros [pending Hpool] HN Hn. unfold Concat.ConcatNode_generate.
  set (self1 := if (0 <? length children)%nat then _ else self).
  assert (Hpool1 : exists p, Concat._all_children self1 = Concat.PyMap p).
  { unfold self1. destruct (0 <? length children)%nat; [by eexists | by eexists]. }
  assert (HN1 : Concat.N self1 = Some n).
  { unfold self1. by destruct (0 <? length children)%nat. }
  destruct Hpool1 as [p Hp]. rewrite HN1.
  replace (n =? 0) with false by lia. replace (n >? 0) with true by lia.
  cbn [negb]. rewrite Hp. reflexivity.
Qed.

(** The constructor of node-tree.py keeps the count it is given. *)
Lemma ConcatNode_init_count
    (shuffle : list (list A) -> list (list A)) items (n : option Z)
    (node : Concat.concat (A := A)) :
  Concat.ConcatNode_init shuffle items n = Ok node -> Concat.N node = n.
Proof.
  unfold Concat.ConcatNode_init. destruct n as [k|].
  - destruct (Concat.force _) as [pool|e]; [|discriminate]. cbn [rbind].
    destruct (k <? 0); [discriminate|]. by intros [= <-].
  - by intros [= <-].
Qed.
End ConcatFacts.

(** C5. Sampled Concat generation. The code never reaches the sampling
    the claim describes. In artificial_grammar_toolkit.py the constructor
    given a count fails for every input: the candidates are a [map]
    object, whose [len] raises [TypeError] (for a count of at least one
    and at least one item), and the remaining cases fail an assertion or
    in [EmptyNode()]. In node-tree.py, [generate] on a node built with a
    count of at least one raises [TypeError] at the same [len]. At the
    pool of three items and the count 2 both raise [TypeError], where
    the claim has two children selected. *)
Theorem C5_sampling_never_reached {A T : Type}
    (TemplateNode : T -> result A) (EmptyNode : result A)
    (shuffle : list (list A) -> list (list A))
    (items : list T) (n : Z) (sample : list nat) :
  (exists e,
     Concat.ConcatNode_init_children TemplateNode EmptyNode items (Some n) sample
     = Raise e)
  /\ (items <> [] -> 1 <= n ->
      Concat.ConcatNode_init_children TemplateNode EmptyNode items (Some n) sample
      = Raise TypeError)
  /\ (forall node children,
        1 <= n ->
        Concat.ConcatNode_init shuffle items (Some n) = Ok node ->
        Concat.ConcatNode_generate node children = Raise TypeError).
Proof.
  split_and!.
  - unfold Concat.ConcatNode_init_children.
    destruct items as [|i items].
    + destruct EmptyNode as [e|e]; [|by eexists]. cbn [rbind Concat.len length].
      destruct (n >? 0) eqn:Hn; cbn [negb]; [|by eexists].
      apply Z.gtb_lt in Hn.
      assert ((Z.of_nat 1 >? n) = false) as ->
        by (rewrite Z.gtb_ltb; apply Z.ltb_ge; simpl; lia).
      by eexists.
    + cbn [rbind Concat.len]. destruct (negb (n >? 0)); by eexists.
  - intros Hi Hn. unfold Concat.ConcatNode_init_children.
    destruct items as [|i items]; [done|]. cbn [rbind Concat.len].
    by replace (n >? 0) with true by lia.
  - intros node children Hn Hinit.
    eapply ConcatNode_generate_sampled_type_error; [| |exact Hn].
    + by eapply ConcatNode_init_pool_is_map.
    + by eapply ConcatNode_init_count.
Qed.

(** The theorem at [ConcatNode("a", "b", "c", N=2)] of
    artificial_grammar_toolkit.py. *)
Lemma C5_sampling_never_reached_witness :
  Concat.ConcatNode_init_children (A := string) (fun s : string => Ok s)
    (Raise TypeError) ["a"; "b"; "c"]%string (Some 2) [2; 0]%nat
  = Raise TypeError.
Proof.
  apply (proj1 (proj2 (C5_sampling_never_reached (fun s : string => Ok s)
                         (Raise TypeError) (fun l => l)
                         ["a"; "b"; "c"]%string 2 [2; 0]%nat)));
    [discriminate | lia].
Defined.

(** C10. Sampling without replacement across generations. The mechanism
    the claim describes never runs. The constructor of node-tree.py,
    given a count and at least one item, raises [TypeError] when
    [itertools.combinations] consumes [map(Node.__new__, items)]; and on
    every node the constructor does return, every [generate] call in
    the default order raises, whatever children it is given, so that no
    combination is ever selected. *)
Theorem C10_no_generate_call_returns {A T : Type}
    (shuffle : list (list A) -> list (list A)) (items : list T) (n : option Z) :
  (forall k, items <> [] -> n = Some k ->
             Concat.ConcatNode_init (A := A) shuffle items n = Raise TypeError)
  /\ (forall node children,
        Concat.ConcatNode_init shuffle items n = Ok node ->
        exists e, Concat.ConcatNode_generate node children = Raise e).
Proof.
  split.
  - intros k Hi ->. unfold Concat.ConcatNode_init.
    destruct items as [|i items]; [done|]. reflexivity.
  - intros node children Hinit.
    apply ConcatNode_generate_raises. by eapply ConcatNode_init_pool_is_map.
Qed.

(** The theorem at [ConcatNode("a", "b", "c", N=2)] of node-tree.py. *)
Lemma C10_no_generate_call_returns_witness :
  Concat.ConcatNode_init (A := string) (fun l => l) ["a"; "b"; "c"]%string (Some 2)
  = Raise TypeError.
Proof.
  apply (proj1 (C10_no_generate_call_returns (A := string) (fun l => l)
                  ["a"; "b"; "c"]%string (Some 2)) 2); [discriminate | reflexivity].
Defined.

(** ** Exclude *)

(** C7. Exclude retry semantics. The loop of [ExcludeNode.generate]
    tests [ast.matches(self.rhs)], and the name [ast] is bound nowhere:
    the first attempt in which the generation of [lhs] returns ends the
    call with [NameError], after its updates were merged into the scope.
    So, over the attempts the code can make, [generate] never returns a
    scope, whatever the depth: there is no acceptance, by non-match or
    by fallback. *)
Theorem C7_exclude_never_returns {V : Type}
    (attempts : list (Exclude.attempt V)) (depth : option Z)
    (s : gmap String.string V) :
  forallb ExcludeTest.possible attempts = true ->
  (forall r, Exclude.ExcludeNode_generate attempts depth s <> Exclude.Returned r)
  /\ (forall u rest,
        attempts = Exclude.Generated u (Raise NameError) :: rest ->
        Exclude.ExcludeNode_generate attempts depth s = Exclude.Raised NameError).
Proof.
  intros Hposs. split; [|by intros u rest ->].
  revert depth s. induction attempts as [|a attempts IH]; intros depth s r.
  - discriminate.
  - cbn [forallb] in Hposs. apply andb_true_iff in Hposs as [Ha Hrest].
    specialize (IH Hrest). cbn [Exclude.ExcludeNode_generate].
    destruct a as [u v|e].
    + destruct v as [b|e]; [discriminate Ha|].
      destruct e; try discriminate Ha. discriminate.
    + destruct e; try discriminate.
      destruct depth as [d|]; [|discriminate].
      destruct (d >? 0); [apply IH | discriminate].
Qed.

(** The theorem at an Exclude with [depth = 1] whose first attempt
    overflows the stack and whose second generates [lhs]. *)
Lemma C7_exclude_never_returns_witness :
  Exclude.ExcludeNode_generate
    [Exclude.Failed RecursionError;
     Exclude.Generated ({[ "a"%string := 1 ]} : gmap String.string Z) (Raise NameError)]
    (Some 1) ∅
  <> Exclude.Returned {[ "a"%string := 1 ]}.
Proof.
  apply (proj1 (C7_exclude_never_returns
                  [Exclude.Failed RecursionError;
                   Exclude.Generated ({[ "a"%string := 1 ]} : gmap String.string Z)
                     (Raise NameError)]
                  (Some 1) ∅ eq_refl)).
Defined.

(** ** The normalizer on strings *)

(** C9 (as amended). Normalizing a string template, with a keyword
    context that has no key named [var], raises no error, whether the
    string names an accessible value or not; and a name bound in the
    resolver's own locals or, failing that, in the module globals yields
    the bound value as it is, not invoked even when it is callable. *)
Theorem C9_string_template_resolution {K : Type}
    (has_var : K -> bool) (g : gmap String.string (Lazy.value K))
    (name : String.string) (kw : K) :
  has_var kw = false ->
  (exists v, LazyCall.Node_new_str has_var g name kw = Ok v)
  /\ (forall v, Lazy.locals (Lazy.VStr name) kw !! name = Some v ->
        LazyCall.Node_new_str has_var g name kw = Ok v)
  /\ (forall v, Lazy.locals (Lazy.VStr name) kw !! name = None ->
        g !! name = Some v ->
        LazyCall.Node_new_str has_var g name kw = Ok v).
Proof.
  intros Hkw. unfold LazyCall.Node_new_str, Lazy._lazy_eval. rewrite Hkw.
  destruct (Lazy.locals (Lazy.VStr name) kw !! name) as [v|] eqn:Hl.
  - split_and!; [by eexists | by intros ? [= ->] | done].
  - destruct (g !! name) as [v|] eqn:Hg.
    + split_and!; [by eexists | done | by intros ? _ [= ->]].
    + split_and!; [by eexists | done | done].
Qed.

(** The theorem at the string ["down"], with no global bound and an
    empty keyword context. *)
Lemma C9_string_template_resolution_witness :
  exists v, LazyCall.Node_new_str (K := unit) (fun _ => false) ∅ "down" tt = Ok v.
Proof.
  apply (proj1 (C9_string_template_resolution (K := unit) (fun _ => false)
                  ∅ "down" tt eq_refl)).
Defined.

(** The claim as written has a string that names a callable invoked with
    the keyword context, and no string raising an error. With the
    global [f] bound to a zero-argument factory, normalizing ["f"]
    returns the factory itself, not what it would produce; and with a
    keyword named [var] in the context, normalizing a string raises
    [TypeError]. *)
Lemma C9_named_callable_not_invoked :
  let factory : unit -> result (Lazy.value unit) := fun _ => Ok (Lazy.VObject 7) in
  let g : gmap String.string (Lazy.value unit) :=
    {[ "f"%string := Lazy.VCallable factory ]} in
  Lazy.callable (Lazy.VCallable factory) = true
  /\ g !! "f"%string = Some (Lazy.VCallable factory)
  /\ LazyCall.Node_new_str (fun _ => false) g "f" tt = Ok (Lazy.VCallable factory)
  /\ LazyCall.Node_new_str (fun _ => false) g "f" tt <> factory tt
  /\ LazyCall.Node_new_str (K := bool) (fun kw => kw) ∅ "down" true = Raise TypeError.
Proof.
  intros factory g.
  assert (Hg : g !! "f"%string = Some (Lazy.VCallable factory))
    by apply lookup_singleton_eq.
  assert (Hr : LazyCall.Node_new_str (fun _ => false) g "f" tt
               = Ok (Lazy.VCallable factory)).
  { unfold LazyCall.Node_new_str.
    apply (lazy_eval_global g "f" tt (Lazy.VCallable factory)); [|exact Hg].
    rewrite locals_lookup. reflexivity. }
  split_and!; [done | exact Hg | exact Hr | | reflexivity].
  rewrite Hr. discriminate.
Qed.

(** ** Execution *)

Section ExecuteInitFacts.
Context {E K V : Type}.
Variable scope_keyword : gmap String.string V -> K.

(** [Node.execute] of artificial_grammar_toolkit.py reads its local
    [scope] before any assignment to it: on a node with children when
    it builds the arguments of the first child's call, on a node
    without children at [return scope]. *)
Lemma execute_init_raises (n : ExecuteInit.Node E K V) (env : option E) (kw : K) :
  ExecuteInit.execute scope_keyword n env kw
  = (match ExecuteInit.exec_func n with
     | Some f => [(env, ExecuteInit.scope_of n, kw)]
     | None => []
     end, Raise UnboundLocalError).
Proof.
  destruct n as [s f cs]. destruct cs as [|c cs].
  - cbn. by rewrite app_nil_r.
  - cbn. by rewrite app_nil_r.
Qed.
End ExecuteInitFacts.

Section ExecuteKeys.
Context {V : Type}.
Implicit Types (d u : gmap String.string V).

(** [d.update(u)] binds every key of [u] to the value [u] gives it and
    leaves the other keys of [d] as they are. *)
Lemma update_lookup d u (k : String.string) :
  Execute.update d u !! k
  = match u !! k with Some v => Some v | None => d !! k end.
Proof.
  unfold Execute.update, Execute.scope. rewrite lookup_union.
  destruct (u !! k), (d !! k); done.
Qed.
End ExecuteKeys.

(** C4. Execution ordering and scope threading. [Node.execute] of
    artificial_grammar_toolkit.py runs the node's own action first and
    then raises [UnboundLocalError], on every node: no child is
    executed and no update is threaded or returned. [Node.execute] of
    node-tree.py does what the claim says: on a Concat [P] of three
    action-bearing children [A], [B], [C] in the default post-order the
    actions run in the order [A], [B], [C], [P], each on the environment
    left by the one before and on its own snapshot updated with the
    updates so far, so that a key returned by [A] is bound to [A]'s
    value in the scope that [B]'s action receives. *)
Theorem C4_execute_init_raises {E K V : Type} :
  (forall (scope_keyword : gmap String.string V -> K)
          (n : ExecuteInit.Node E K V) (env : option E) (kw : K),
     ExecuteInit.execute scope_keyword n env kw
     = (match ExecuteInit.exec_func n with
        | Some f => [(env, ExecuteInit.scope_of n, kw)]
        | None => []
        end, Raise UnboundLocalError))
  /\ (forall (fa fb fc fp : Execute.action E K V)
            (sa sb sc sp u0 : gmap String.string V) (e0 : E) (kw : K),
       let A := Execute.leaf sa (Some fa) in
       let B := Execute.leaf sb (Some fb) in
       let C := Execute.leaf sc (Some fc) in
       let P := Execute.mkNode sp (Some fp) (Execute.post_order [A; B; C]) in
       let ra := fa e0 (Execute.update sa u0) kw in
       let u1 := Execute.update u0 (default ∅ ra.2) in
       let rb := fb ra.1 (Execute.update sb u1) kw in
       let u2 := Execute.update u1 (default ∅ rb.2) in
       let rc := fc rb.1 (Execute.update sc u2) kw in
       let u3 := Execute.update u2 (default ∅ rc.2) in
       let rp := fp rc.1 (Execute.update sp u3) kw in
       let u4 := Execute.update u3 (default ∅ rp.2) in
       (Execute.execute P e0 u0 kw).1 = (rp.1, u4)
       /\ (forall (ua : gmap String.string V) (k : String.string) (v : V),
             ra.2 = Some ua -> ua !! k = Some v ->
             Execute.update sb u1 !! k = Some v)).
Proof.
  split.
  - intros scope_keyword n env kw. apply execute_init_raises.
  - intros fa fb fc fp sa sb sc sp u0 e0 kw A B C P ra u1 rb u2 rc u3 rp u4.
    split.
    + unfold Execute.execute, P. rewrite execute_in_post_order. cbv zeta.
      unfold A, B, C. cbn [Execute.execute_children].
      repeat (rewrite execute_in_leaf; cbv zeta; cbn [fst snd Execute._execute]).
      reflexivity.
    + intros ua k v Hra Hk. unfold u1. rewrite Hra.
      change (default ∅ (Some ua)) with ua.
      rewrite !update_lookup. by rewrite Hk.
Qed.

(** ** Rendering *)

(** C2. Render determinism. [UnionNode.render] of
    artificial_grammar_toolkit.py calls [random.choice] at every render:
    rendering a Union consumes a draw of the random source, although the
    one child it holds makes the string the same; at the Union holding
    "down" and the source [3], the render returns "down" and leaves the
    source empty. [render] of node-tree.py makes no draw: its result is
    the same for every state of the source, which it leaves as it was. *)
Theorem C2_union_render_init_draws :
  (forall (id : nat) (pool : list Matcher.Node) (c : Matcher.Node) (t : list nat),
     Render.render_init (Matcher.generated (Matcher.UnionNode id pool) [c]) t
     = Render.render_init c (tl t))
  /\ (let u := Matcher.generated (Matcher.UnionNode 0 []) [Matcher.StringNode 1 "down"] in
      Render.render_init u [3%nat] = (Ok "down"%string, [])
      /\ Render.render u [3%nat] = (Ok "down"%string, [3%nat]))
  /\ (forall (n : Matcher.Node) (t1 t2 : list nat),
        (Render.render n t1).1 = (Render.render n t2).1
        /\ (Render.render n t1).2 = t1).
Proof.
  split_and!.
  - apply render_init_union_draws.
  - split; reflexivity.
  - intros n t1 t2. destruct (render_no_draw n) as [r Hr]. by rewrite !Hr.
Qed.
